(** * siss: a paced image producer, a bounded drop-oldest queue and a pool
    of JPEG-writing consumers (src/main.cpp)

    The development has two parts.  Part I embeds the program: the
    [SafeQueue] operations as functions on the underlying deque, the
    producer's pacing arithmetic, the start-up validation of [main], and the
    producer and consumer threads as a labelled transition system whose
    steps are the atomic actions of the source (one critical section of the
    queue, one [fetch_add], one call into OpenCV or the file system).
    Part II states and proves the properties. *)

From Stdlib Require Import ZArith Lia Ascii.
From stdpp Require Import base numbers option list strings pretty.

(* ===================================================================== *)
(** * Part I: the program                                                 *)
(* ===================================================================== *)

(** ** Machine integers

    [imagesGenerated] and [imagesSaved] are [std::atomic<int>]: 32-bit
    two's complement, and [fetch_add] on an atomic wraps around without
    undefined behaviour.  [totalBytesWritten] is [std::atomic<size_t>],
    64 bits wide on the LP64 targets the program is built for. *)

Definition INT_MAX : Z := 2147483647.
Definition INT_MIN : Z := -2147483648.
Definition INT_MODULUS : Z := 4294967296.
Definition SIZE_MODULUS : Z := 18446744073709551616.

Definition wrap_int (z : Z) : Z :=
  ((z - INT_MIN) `mod` INT_MODULUS + INT_MIN)%Z.

Definition wrap_size_t (z : Z) : Z := (z `mod` SIZE_MODULUS)%Z.

(** [std::atomic<int>::fetch_add(1)]: returns the old value, stores the
    wrapped sum. *)
Definition fetch_add_int (counter delta : Z) : Z * Z :=
  (counter, wrap_int (counter + delta)).

Definition fetch_add_size_t (counter delta : Z) : Z * Z :=
  (counter, wrap_size_t (counter + delta)).

(** ** Global constants (lines 24-30) *)

Definition MAX_QUEUE_SIZE : nat := 200.
Definition outputDir : string := "../output".
Definition MAX_CONSUMERS : Z := 7.

(** ** SafeQueue (lines 39-88)

    The mutex makes every member function one atomic action on the
    deque, so each is a function of the deque (and, for [pop], of the value
    the [running] flag has when the wait predicate is evaluated).  The
    notifications wake threads that wait and change no data.  The
    capacity is the global [MAX_QUEUE_SIZE] in the source; the functions take
    it as an argument so that they can be studied at any capacity. *)

Module SafeQueue.
Section Ops.
Context {T : Type}.

(** [std::deque::pop_front]: undefined on an empty deque, which is [None]
    here. *)
Definition pop_front (queue : list T) : option (list T) :=
  match queue with
  | [] => None
  | _ :: rest => Some rest
  end.

(** Lines 50-57. *)
Definition push (capacity : nat) (queue : list T) (value : T)
  : option (list T) :=
  queue1 ← (if decide (capacity ≤ length queue)
            then pop_front queue else Some queue);
  Some (queue1 ++ [value]).

(** What a call of [pop] does: it stays in [cv.wait] while the predicate
    [!queue.empty() || !running] is false, returns [false] on an empty
    queue, and otherwise moves the front element out and returns [true]. *)
Inductive pop_result : Type :=
| PopWaits
| PopFalse
| PopTrue (value : T) (queue' : list T).

(** Lines 65-73. *)
Definition pop (queue : list T) (running : bool) : pop_result :=
  if negb (bool_decide (queue = [])) || negb running
  then match queue with
       | [] => PopFalse
       | value :: rest => PopTrue value rest
       end
  else PopWaits.

(** Lines 75-83. *)
Definition empty (queue : list T) : bool := bool_decide (queue = []).
Definition size (queue : list T) : nat := length queue.

(** Consecutive pushes by the producer with no pop in between. *)
Fixpoint push_all (capacity : nat) (queue : list T) (items : list T)
  : option (list T) :=
  match items with
  | [] => Some queue
  | item :: items' =>
      queue' ← push capacity queue item; push_all capacity queue' items'
  end.

(** [count] consecutive calls of [pop] on a closed channel ([running] is
    false, so no call waits); the list holds what each call returned,
    [Some value] for [true] and [None] for [false]. *)
Fixpoint pop_closed (count : nat) (queue : list T) : list (option T) :=
  match count with
  | O => []
  | S count' =>
      match pop queue false with
      | PopTrue value rest => Some value :: pop_closed count' rest
      | PopFalse => None :: pop_closed count' queue
      | PopWaits => []
      end
  end.

(** Arbitrary sequential use of the channel.  A [pop] that waits leaves the
    deque as it is. *)
Inductive queue_op : Type :=
| OpPush (value : T)
| OpPop (running : bool).

Definition apply_op (capacity : nat) (queue : list T) (op : queue_op)
  : option (list T) :=
  match op with
  | OpPush value => push capacity queue value
  | OpPop running =>
      match pop queue running with
      | PopTrue _ rest => Some rest
      | PopFalse | PopWaits => Some queue
      end
  end.

Fixpoint apply_ops (capacity : nat) (queue : list T) (ops : list queue_op)
  : option (list T) :=
  match ops with
  | [] => Some queue
  | op :: ops' =>
      queue' ← apply_op capacity queue op; apply_ops capacity queue' ops'
  end.

End Ops.

Arguments pop_result : clear implicits.
Arguments queue_op : clear implicits.

End SafeQueue.

(** ** The producer's pacing (lines 115, 120, 134)

    [interval] is [milliseconds(1000 / TARGET_FPS)]: a division of two
    [int]s, which truncates.  Time points of [steady_clock] are counted in
    nanoseconds. *)

Definition interval (TARGET_FPS : Z) : Z := (1000 ÷ TARGET_FPS)%Z.

Definition milliseconds (count : Z) : Z := (count * 1000000)%Z.

(** [std::this_thread::sleep_until]: the earliest time at which the caller
    runs again, given the clock when it is called. *)
Definition sleep_until (now wake : Z) : Z := Z.max now wake.

(** One iteration of the loop of [imageProducer] that begins when the clock
    shows [start] and whose body (generation, push, counting, report) takes
    [work] nanoseconds: the time at which the next iteration begins. *)
Definition producer_iteration (TARGET_FPS start work : Z) : Z :=
  sleep_until (start + work) (start + milliseconds (interval TARGET_FPS)).

(** The start times of consecutive iterations whose bodies take the times
    listed in [works]. *)
Fixpoint producer_starts (TARGET_FPS start : Z) (works : list Z) : list Z :=
  match works with
  | [] => []
  | work :: works' =>
      start :: producer_starts TARGET_FPS
                 (producer_iteration TARGET_FPS start work) works'
  end.

(** ** Start-up of [main] (lines 178-228)

    [main] is a function of the argument vector; what it does is the list of
    its actions in program order together with the exit code.  [atoi] is the
    C library's, and the preparation of the output directory is taken to
    return normally. *)

Inductive main_action : Type :=
| ErrUsage
| ErrNotPositive
| ErrTooManyConsumers
| PrintBanner (fps dur consumers : Z)
| RemoveOutputDir
| CreateOutputDir
| SpawnProducer
| SpawnConsumer (id : Z)
| SleepFor (seconds : Z)
| StoreRunningFalse
| NotifyAll
| JoinProducer
| JoinConsumer (id : Z)
| PrintSummary.

Section Main.
Variable atoi : string → Z.

Definition main (argv : list string) (output_exists : bool)
  : list main_action * Z :=
  match argv with
  | [_; arg1; arg2; arg3] =>
      let dur := atoi arg1 in
      let fps := atoi arg2 in
      let consumers := atoi arg3 in
      if bool_decide (dur ≤ 0 ∨ fps ≤ 0 ∨ consumers ≤ 0)%Z
      then ([ErrNotPositive], 1%Z)
      else if bool_decide (consumers > MAX_CONSUMERS)%Z
      then ([ErrTooManyConsumers], 1%Z)
      else
        ([PrintBanner fps dur consumers]
         ++ (if output_exists then [RemoveOutputDir] else [])
         ++ [CreateOutputDir; SpawnProducer]
         ++ (SpawnConsumer <$> seqZ 0 consumers)
         ++ [SleepFor dur; StoreRunningFalse; NotifyAll; JoinProducer]
         ++ (JoinConsumer <$> seqZ 0 consumers)
         ++ [PrintSummary], 0%Z)
  | _ => ([ErrUsage], 1%Z)
  end.

(** The three values are acceptable: a positive duration, a positive rate
    and between one and [MAX_CONSUMERS] consumers. *)
Definition valid_config (argv : list string) : Prop :=
  ∃ arg0 arg1 arg2 arg3,
    argv = [arg0; arg1; arg2; arg3]
    ∧ (0 < atoi arg1)%Z ∧ (0 < atoi arg2)%Z
    ∧ (1 ≤ atoi arg3 ≤ MAX_CONSUMERS)%Z.

End Main.

Definition is_spawn (a : main_action) : bool :=
  match a with
  | SpawnProducer | SpawnConsumer _ => true
  | _ => false
  end.

(** ** The threads (lines 113-166)

    [Mat] is OpenCV's image type and [imencode] its JPEG encoder: [None]
    when [cv::imencode] returns false, otherwise the encoded buffer. *)

Definition filename (index : Z) : string :=
  ((outputDir +:+ "/img_") +:+ pretty index) +:+ ".jpg".

Section Pipeline.
Context {Mat : Type}.
Variable imencode : Mat → option (list Byte.byte).

(** Where the producer is in [imageProducer]. *)
Inductive producer_pc : Type :=
| PLoop                 (* line 119: about to test [running] *)
| PPush (img : Mat)     (* line 123: [img] generated, about to push it *)
| PCount                (* line 124: pushed, about to count it *)
| PDone.                (* line 137 passed *)

(** Where a consumer is in [imageConsumer]. *)
Inductive consumer_pc : Type :=
| CPop                              (* line 150: in [imageQueue.pop] *)
| CIndex (img : Mat)                (* line 154: popped [img] *)
| CSink (img : Mat) (index : Z)     (* lines 158-160: encode and open *)
| CWrite (file : string) (buffer : list Byte.byte)   (* lines 161-162 *)
| CDone.                            (* left the loop at line 151 *)

Record state : Type := State {
  queue : list Mat;
  running : bool;
  imagesGenerated : Z;
  imagesSaved : Z;
  totalBytesWritten : Z;
  producer : producer_pc;
  consumers : list consumer_pc
}.

Definition set_queue (q : list Mat) (s : state) : state :=
  State q (running s) (imagesGenerated s) (imagesSaved s)
        (totalBytesWritten s) (producer s) (consumers s).
Definition set_running (b : bool) (s : state) : state :=
  State (queue s) b (imagesGenerated s) (imagesSaved s)
        (totalBytesWritten s) (producer s) (consumers s).
Definition set_imagesGenerated (n : Z) (s : state) : state :=
  State (queue s) (running s) n (imagesSaved s)
        (totalBytesWritten s) (producer s) (consumers s).
Definition set_imagesSaved (n : Z) (s : state) : state :=
  State (queue s) (running s) (imagesGenerated s) n
        (totalBytesWritten s) (producer s) (consumers s).
Definition set_totalBytesWritten (n : Z) (s : state) : state :=
  State (queue s) (running s) (imagesGenerated s) (imagesSaved s)
        n (producer s) (consumers s).
Definition set_producer (pc : producer_pc) (s : state) : state :=
  State (queue s) (running s) (imagesGenerated s) (imagesSaved s)
        (totalBytesWritten s) pc (consumers s).
Definition set_consumer (id : nat) (pc : consumer_pc) (s : state) : state :=
  State (queue s) (running s) (imagesGenerated s) (imagesSaved s)
        (totalBytesWritten s) (producer s) (<[id := pc]> (consumers s)).

(** The state in which [main] has created the threads: line 91-95 and
    217-221. *)
Definition init (NUM_CONSUMERS : nat) : state :=
  State [] true 0 0 0 PLoop (replicate NUM_CONSUMERS CPop).

(** One label per atomic action. *)
Inductive event : Type :=
| EvShutdown
| EvProduce (img : Mat)
| EvPush (img : Mat)
| EvGenerated
| EvProducerExit
| EvPop (id : nat) (img : Mat)
| EvPopFalse (id : nat)
| EvIndex (id : nat) (index : Z)
| EvEncodeFailed (id : nat) (index : Z)
| EvOpenFailed (id : nat) (file : string)
| EvOpened (id : nat) (file : string)
| EvWritten (id : nat) (file : string) (bytes : nat).

Inductive step : state → event → state → Prop :=
(* main, line 224 *)
| step_shutdown s :
    step s EvShutdown (set_running false s)
(* producer, lines 119-121; the load of [running] is relaxed, so after the
   store of line 224 it may still return the older value *)
| step_produce s img :
    producer s = PLoop →
    running s = true →
    step s (EvProduce img) (set_producer (PPush img) s)
| step_produce_stale s img :
    producer s = PLoop →
    running s = false →
    step s (EvProduce img) (set_producer (PPush img) s)
| step_producer_exit s :
    producer s = PLoop →
    running s = false →
    step s EvProducerExit (set_producer PDone s)
(* line 123 *)
| step_push s img q' :
    producer s = PPush img →
    SafeQueue.push MAX_QUEUE_SIZE (queue s) img = Some q' →
    step s (EvPush img) (set_producer PCount (set_queue q' s))
(* line 124; the rest of the iteration touches nothing shared *)
| step_generated s :
    producer s = PCount →
    step s EvGenerated
      (set_producer PLoop
         (set_imagesGenerated (fetch_add_int (imagesGenerated s) 1).2 s))
(* consumer, line 150 *)
| step_pop s id img q' :
    consumers s !! id = Some CPop →
    SafeQueue.pop (queue s) (running s) = SafeQueue.PopTrue img q' →
    step s (EvPop id img) (set_consumer id (CIndex img) (set_queue q' s))
| step_pop_false s id :
    consumers s !! id = Some CPop →
    SafeQueue.pop (queue s) (running s) = SafeQueue.PopFalse →
    step s (EvPopFalse id) (set_consumer id CDone s)
(* line 154 *)
| step_index s id img :
    consumers s !! id = Some (CIndex img) →
    step s (EvIndex id (fetch_add_int (imagesSaved s) 1).1)
      (set_consumer id (CSink img (fetch_add_int (imagesSaved s) 1).1)
         (set_imagesSaved (fetch_add_int (imagesSaved s) 1).2 s))
(* line 158, [imencode] returns false *)
| step_encode_failed s id img index :
    consumers s !! id = Some (CSink img index) →
    imencode img = None →
    step s (EvEncodeFailed id index) (set_consumer id CPop s)
(* lines 159-160, the stream is not open *)
| step_open_failed s id img index buffer :
    consumers s !! id = Some (CSink img index) →
    imencode img = Some buffer →
    step s (EvOpenFailed id (filename index)) (set_consumer id CPop s)
| step_opened s id img index buffer :
    consumers s !! id = Some (CSink img index) →
    imencode img = Some buffer →
    step s (EvOpened id (filename index))
      (set_consumer id (CWrite (filename index) buffer) s)
(* lines 161-162 *)
| step_written s id file buffer :
    consumers s !! id = Some (CWrite file buffer) →
    step s (EvWritten id file (length buffer))
      (set_consumer id CPop
         (set_totalBytesWritten
            (fetch_add_size_t (totalBytesWritten s)
               (Z.of_nat (length buffer))).2 s)).

(** Runs, with the list of their events in the order they happened. *)
Inductive run : state → list event → state → Prop :=
| run_nil s : run s [] s
| run_snoc s trace s1 e s2 :
    run s trace s1 → step s1 e s2 → run s (trace ++ [e]) s2.

(** Every thread has returned, so that [join] returns (lines 227-228). *)
Definition all_joined (s : state) : Prop :=
  producer s = PDone ∧ ∀ pc, pc ∈ consumers s → pc = CDone.

(** What a run shows: how many payloads were pushed, counted and popped,
    the sequence numbers handed out at line 154 in the order of their
    [fetch_add]s, the file names line 155 builds from them, and the bytes
    added at line 162. *)
Definition is_push (e : event) : bool :=
  match e with EvPush _ => true | _ => false end.
Definition is_generated (e : event) : bool :=
  match e with EvGenerated => true | _ => false end.
Definition is_pop (e : event) : bool :=
  match e with EvPop _ _ => true | _ => false end.
Definition index_of (e : event) : option Z :=
  match e with EvIndex _ index => Some index | _ => None end.
Definition bytes_of (e : event) : Z :=
  match e with EvWritten _ _ bytes => Z.of_nat bytes | _ => 0%Z end.

Definition pushed (trace : list event) : nat := length (filter is_push trace).
Definition generated (trace : list event) : nat :=
  length (filter is_generated trace).
Definition popped (trace : list event) : nat := length (filter is_pop trace).
Definition indices (trace : list event) : list Z := omap index_of trace.
Definition files (trace : list event) : list string :=
  filename <$> indices trace.
Definition written (trace : list event) : Z :=
  foldr (λ e total, bytes_of e + total)%Z 0%Z trace.

(** The files that were opened for writing (line 159), in that order. *)
Definition opened_file (e : event) : option string :=
  match e with EvOpened _ file => Some file | _ => None end.
Definition opened (trace : list event) : list string :=
  omap opened_file trace.

(** Bookkeeping for the proofs: the consumers that hold a popped payload
    without a sequence number yet, and whether the producer has pushed a
    payload that it has not counted yet. *)
Definition awaits_index (pc : consumer_pc) : bool :=
  match pc with CIndex _ => true | _ => false end.
Definition pending (s : state) : nat :=
  length (filter awaits_index (consumers s)).
Definition uncounted (s : state) : nat :=
  match producer s with PCount => 1 | _ => 0 end.
(** The file a consumer has named and not tried to open yet. *)
Definition held_file (pc : consumer_pc) : option string :=
  match pc with CSink _ index => Some (filename index) | _ => None end.

(** [buffer] is what [imencode] made of some image, and [file], named after
    some sequence number, has been opened. *)
Definition encoded_and_opened (trace : list event) (file : string)
    (buffer : list Byte.byte) : Prop :=
  ∃ img index,
    imencode img = Some buffer ∧ file = filename index
    ∧ file ∈ opened trace.

(** How the shared state of a run relates to what the run has shown. *)
Record invariant (trace : list event) (s : state) : Prop := {
  inv_generated : imagesGenerated s = wrap_int (Z.of_nat (generated trace));
  inv_pushed : pushed trace = generated trace + uncounted s;
  inv_saved : imagesSaved s = wrap_int (Z.of_nat (length (indices trace)));
  inv_popped : popped trace = length (indices trace) + pending s;
  inv_queue : popped trace + length (queue s) ≤ pushed trace;
  inv_bytes : totalBytesWritten s = wrap_size_t (written trace);
  inv_indices :
    indices trace
    = wrap_int <$> seqZ 0 (Z.of_nat (length (indices trace)));
  inv_bound : length (queue s) ≤ MAX_QUEUE_SIZE;
  inv_encoded : ∀ id file buffer,
    consumers s !! id = Some (CWrite file buffer) →
    encoded_and_opened trace file buffer
}.

End Pipeline.

(** ** Stand-ins for the libraries, to run the model on examples

    [atoi_decimal] reads an optional sign and the leading decimal digits,
    as [atoi] does on the strings whose value fits an [int].
    [sample_imencode] takes an image to be its pixel bytes, refuses the
    empty image and returns any other unchanged. *)

Definition digit_value (c : Ascii.ascii) : option Z :=
  let n := Z.of_N (Ascii.N_of_ascii c) in
  if bool_decide (48 ≤ n ≤ 57)%Z then Some (n - 48)%Z else None.

Fixpoint atoi_digits (acc : Z) (s : string) : Z :=
  match s with
  | EmptyString => acc
  | String c s' =>
      match digit_value c with
      | Some d => atoi_digits (10 * acc + d)%Z s'
      | None => acc
      end
  end.

Definition atoi_decimal (s : string) : Z :=
  match s with
  | String "-"%char s' => (- atoi_digits 0 s')%Z
  | String "+"%char s' => atoi_digits 0 s'
  | _ => atoi_digits 0 s
  end.

Definition sample_imencode (img : list Byte.byte)
  : option (list Byte.byte) :=
  match img with
  | [] => None
  | _ => Some img
  end.

Definition sample_img : list Byte.byte := [Byte.x10; Byte.x20; Byte.x30].

(** A run of two consumers and three images, the second of which
    [sample_imencode] refuses: consumer 0 pops the first image and
    consumer 1 the second, consumer 1 is given its number first, and the
    third image is pushed while both are busy.  [busy_trace_opened] stops
    when consumer 0 has opened its file, [busy_trace] goes on to the end. *)
Definition sample_img_refused : list Byte.byte := [].
Definition sample_img_2 : list Byte.byte := [Byte.x40; Byte.x50].

Definition busy_trace_opened : list (@event (list Byte.byte)) :=
  [EvProduce sample_img; EvPush sample_img; EvGenerated;
   EvProduce sample_img_refused; EvPush sample_img_refused; EvGenerated;
   EvPop 0 sample_img; EvPop 1 sample_img_refused;
   EvIndex 1 0; EvIndex 0 1;
   EvProduce sample_img_2; EvPush sample_img_2; EvGenerated;
   EvEncodeFailed 1 0; EvOpened 0 (filename 1)].

Definition busy_state_opened : @state (list Byte.byte) :=
  State [sample_img_2] true 3 2 0 PLoop [CWrite (filename 1) sample_img; CPop].

Definition busy_trace : list (@event (list Byte.byte)) :=
  busy_trace_opened
  ++ [EvWritten 0 (filename 1) (length sample_img);
      EvPop 1 sample_img_2; EvIndex 1 2; EvOpened 1 (filename 2);
      EvWritten 1 (filename 2) (length sample_img_2);
      EvShutdown; EvPopFalse 0; EvPopFalse 1; EvProducerExit].

Definition busy_state : @state (list Byte.byte) :=
  State [] false 3 3 5 PDone [CDone; CDone].

(** ** The producer's rate report (lines 116-117, 125-132)

    [lastPrint] is a time point in nanoseconds, [fpsCounter] an [int].
    [duration_cast<seconds>] truncates towards zero. *)

Record report_state : Type := ReportState {
  lastPrint : Z;
  fpsCounter : Z
}.

Definition duration_cast_seconds (nanoseconds : Z) : Z :=
  (nanoseconds ÷ 1000000000)%Z.

(** Lines 125-132 in the iteration in which [steady_clock::now()] of line
    127 returns [now]: the line printed, if any, with the time it is printed
    at, and the two variables afterwards.  [++fpsCounter] on [INT_MAX] is
    undefined, which is [None] here. *)
Definition count_and_report (st : report_state) (now : Z)
  : option (option (Z * Z) * report_state) :=
  if bool_decide (fpsCounter st = INT_MAX) then None
  else
    let counter := (fpsCounter st + 1)%Z in
    if bool_decide (1 ≤ duration_cast_seconds (now - lastPrint st))%Z
    then Some (Some (now, counter), ReportState now 0)
    else Some (None, ReportState (lastPrint st) counter).

(** The same over consecutive iterations, with the lines in the order in
    which they are printed. *)
Fixpoint count_and_report_all (st : report_state) (nows : list Z)
  : option (list (Z * Z) * report_state) :=
  match nows with
  | [] => Some ([], st)
  | now :: nows' =>
      '(line, st1) ← count_and_report st now;
      '(lines, st2) ← count_and_report_all st1 nows';
      Some (option_list line ++ lines, st2)
  end.

(** ** The threads that [main] creates and joins (lines 217-228) *)

Inductive thread : Type :=
| ProducerThread
| ConsumerThread (id : Z).

Definition spawned (a : main_action) : option thread :=
  match a with
  | SpawnProducer => Some ProducerThread
  | SpawnConsumer id => Some (ConsumerThread id)
  | _ => None
  end.

Definition joined (a : main_action) : option thread :=
  match a with
  | JoinProducer => Some ProducerThread
  | JoinConsumer id => Some (ConsumerThread id)
  | _ => None
  end.

(** ** More of what a run shows *)

Section PipelineObservations.
Context {Mat : Type}.

(** The images in the order in which they were pushed, and in the order in
    which they were popped. *)
Definition pushed_img (e : @event Mat) : option Mat :=
  match e with EvPush img => Some img | _ => None end.
Definition popped_img (e : @event Mat) : option Mat :=
  match e with EvPop _ img => Some img | _ => None end.
Definition pushed_imgs (trace : list (@event Mat)) : list Mat :=
  omap pushed_img trace.
Definition popped_imgs (trace : list (@event Mat)) : list Mat :=
  omap popped_img trace.

(** The payloads whose encoding or whose file failed. *)
Definition is_failed (e : @event Mat) : bool :=
  match e with
  | EvEncodeFailed _ _ | EvOpenFailed _ _ => true
  | _ => false
  end.
Definition failed (trace : list (@event Mat)) : nat :=
  length (filter is_failed trace).

End PipelineObservations.

(** ** What each consumer has done

    The events of one consumer, in their order, and what they end with
    when the consumer is at a given place of its loop: the payload it holds
    is the one it popped last, the number it holds is the one it was given
    for that payload, and the buffer it is about to write is what
    [imencode] made of that payload. *)

Section ConsumerHistory.
Context {Mat : Type}.
Variable imencode : Mat → option (list Byte.byte).

Definition consumer_of (e : @event Mat) : option nat :=
  match e with
  | EvPop id _ | EvPopFalse id | EvIndex id _ | EvEncodeFailed id _
  | EvOpenFailed id _ | EvOpened id _ | EvWritten id _ _ => Some id
  | EvShutdown | EvProduce _ | EvPush _ | EvGenerated | EvProducerExit => None
  end.

Definition own (id : nat) (trace : list (@event Mat)) : list (@event Mat) :=
  filter (λ e, consumer_of e = Some id) trace.


End ConsumerHistory.

(** ** Waking up late (lines 120 and 134)

    [sleep_until] above is the earliest time at which the producer can run
    again.  The thread is woken some time after it, and line 120 reads the
    clock only then: [late] is that delay, in nanoseconds. *)

Definition producer_iteration_late (TARGET_FPS start work late : Z) : Z :=
  (producer_iteration TARGET_FPS start work + late)%Z.

(** The start times of consecutive iterations, each given by the time its
    body takes and the delay of the wake-up that follows it. *)
Fixpoint producer_starts_late (TARGET_FPS start : Z)
    (iterations : list (Z * Z)) : list Z :=
  match iterations with
  | [] => []
  | (work, late) :: iterations' =>
      start :: producer_starts_late TARGET_FPS
                 (producer_iteration_late TARGET_FPS start work late)
                 iterations'
  end.

(* ===================================================================== *)
(** * Part II: properties                                                 *)
(* ===================================================================== *)

(** ** SafeQueue *)

Section SafeQueueFacts.
Context {T : Type}.
Implicit Types (q items : list T) (v : T) (capacity : nat).

Lemma push_below capacity q v :
  length q < capacity → SafeQueue.push capacity q v = Some (q ++ [v]).
Proof.
  intros Hlt. unfold SafeQueue.push.
  destruct (decide (capacity ≤ length q)) as [Hge|_]; [lia|done].
Qed.

Lemma push_full capacity oldest q v :
  capacity ≤ length (oldest :: q) →
  SafeQueue.push capacity (oldest :: q) v = Some (q ++ [v]).
Proof.
  intros Hge. unfold SafeQueue.push.
  destruct (decide (capacity ≤ length (oldest :: q))); [done|lia].
Qed.

(** With a positive capacity the eviction never meets an empty deque. *)
Lemma push_defined capacity q v :
  0 < capacity → is_Some (SafeQueue.push capacity q v).
Proof.
  intros Hpos. destruct (decide (capacity ≤ length q)) as [Hge|Hlt].
  - destruct q as [|oldest q]; [simpl in Hge; lia|].
    rewrite push_full by done. eauto.
  - rewrite push_below by lia. eauto.
Qed.

Lemma push_length capacity q v q' :
  SafeQueue.push capacity q v = Some q' →
  length q' = if decide (capacity ≤ length q) then length q else S (length q).
Proof.
  unfold SafeQueue.push.
  destruct (decide (capacity ≤ length q)) as [Hge|Hlt]; simpl.
  - destruct q as [|oldest q]; simpl; [done|].
    intros [= <-]. rewrite length_app. simpl. lia.
  - intros [= <-]. rewrite length_app. simpl. lia.
Qed.

Lemma push_preserves_bound capacity q v q' :
  length q ≤ capacity →
  SafeQueue.push capacity q v = Some q' → length q' ≤ capacity.
Proof.
  intros Hle Hpush. rewrite (push_length _ _ _ _ Hpush).
  destruct (decide (capacity ≤ length q)); lia.
Qed.

Lemma pop_true_inv q running v q' :
  SafeQueue.pop q running = SafeQueue.PopTrue v q' → q = v :: q'.
Proof.
  unfold SafeQueue.pop. destruct q as [|x q]; simpl.
  - by destruct running.
  - by intros [= -> ->].
Qed.

Lemma pop_false_inv q running :
  SafeQueue.pop q running = SafeQueue.PopFalse → running = false ∧ q = [].
Proof.
  unfold SafeQueue.pop. destruct q as [|x q]; simpl; [|done].
  by destruct running.
Qed.

Lemma pop_nonempty x q running :
  SafeQueue.pop (x :: q) running = SafeQueue.PopTrue x q.
Proof. done. Qed.

Lemma apply_op_preserves_bound capacity q op q' :
  length q ≤ capacity →
  SafeQueue.apply_op capacity q op = Some q' → length q' ≤ capacity.
Proof.
  intros Hle. destruct op as [v|running]; simpl.
  - by apply push_preserves_bound.
  - destruct (SafeQueue.pop q running) as [| |v rest] eqn:Hpop;
      intros [= <-]; try done.
    apply pop_true_inv in Hpop as ->. simpl in Hle. lia.
Qed.

Lemma apply_op_defined capacity q op :
  0 < capacity → is_Some (SafeQueue.apply_op capacity q op).
Proof.
  intros Hpos. destruct op as [v|running]; simpl.
  - by apply push_defined.
  - destruct (SafeQueue.pop q running); eauto.
Qed.

Lemma apply_ops_bounded capacity ops : ∀ q,
  0 < capacity → length q ≤ capacity →
  ∃ q', SafeQueue.apply_ops capacity q ops = Some q' ∧ length q' ≤ capacity.
Proof.
  induction ops as [|op ops IH]; intros q Hpos Hle; simpl.
  - eauto.
  - destruct (apply_op_defined capacity q op Hpos) as [q1 Hq1].
    rewrite Hq1. simpl. apply IH; [done|].
    by eapply apply_op_preserves_bound.
Qed.

(** After any number of pushes onto a queue within its capacity, the queue
    holds the last [capacity] elements of what was there and what came. *)
Lemma push_all_drop capacity items : ∀ q,
  0 < capacity → length q ≤ capacity →
  SafeQueue.push_all capacity q items
  = Some (drop (length (q ++ items) - capacity) (q ++ items)).
Proof.
  induction items as [|item items IH]; intros q Hpos Hle; simpl.
  - rewrite app_nil_r. replace (length q - capacity) with 0 by lia. done.
  - destruct (decide (length q < capacity)) as [Hlt|Hge].
    + rewrite push_below by done. simpl.
      rewrite IH by (rewrite ?length_app; simpl; lia).
      by rewrite <- (assoc_L (++) q [item] items).
    + destruct q as [|oldest q]; [simpl in Hge; lia|].
      rewrite push_full by lia. simpl.
      rewrite IH by (rewrite ?length_app; simpl in *; lia).
      rewrite <- (assoc_L (++) q [item] items). simpl.
      rewrite !length_app. simpl in *.
      replace (S (length q + S (length items)) - capacity)
        with (S (length q + S (length items) - capacity)) by lia.
      done.
Qed.

Lemma pop_closed_drains q : ∀ m,
  SafeQueue.pop_closed (length q + m) q = (Some <$> q) ++ replicate m None.
Proof.
  induction q as [|x q IH]; intros m; simpl.
  - induction m as [|m IHm]; simpl; [done|]. by rewrite IHm.
  - by rewrite IH.
Qed.

End SafeQueueFacts.

Lemma MAX_QUEUE_SIZE_pos : 0 < MAX_QUEUE_SIZE.
Proof. unfold MAX_QUEUE_SIZE. lia. Qed.

(** The scenario of the specification: capacity 3, five pushes. *)
Example push_all_scenario_A :
  SafeQueue.push_all 3 [] ["A"; "B"; "C"; "D"; "E"] = Some ["C"; "D"; "E"].
Proof. reflexivity. Qed.

Example pop_open_empty_waits :
  SafeQueue.pop (@nil nat) true = SafeQueue.PopWaits.
Proof. reflexivity. Qed.

(** C2: [pop] returns false exactly when the channel is closed and empty; on
    a closed channel that still holds elements it hands out the oldest one
    and returns true; and a closed channel holding [k] elements answers the
    next [k + m] calls with its [k] elements, oldest first, and then [m]
    times false. *)
Theorem pop_false_iff_closed_and_empty {T : Type} (q : list T) (running : bool) :
  (SafeQueue.pop q running = SafeQueue.PopFalse ↔ running = false ∧ q = [])
  ∧ (∀ (oldest : T) (rest : list T),
       SafeQueue.pop (oldest :: rest) false = SafeQueue.PopTrue oldest rest)
  ∧ (∀ m, SafeQueue.pop_closed (length q + m) q
          = (Some <$> q) ++ replicate m None).
Proof.
  split; [|split].
  - split; [apply pop_false_inv|]. by intros [-> ->].
  - intros oldest rest. apply pop_nonempty.
  - apply pop_closed_drains.
Qed.

(** C3: at a positive capacity [C], pushing more than [C] items onto the
    empty channel with no pop in between leaves exactly the last [C] of
    them, in the order in which they were pushed. *)
Theorem push_all_keeps_last {T : Type} (C : nat) (items : list T) :
  0 < C → C < length items →
  ∃ evicted kept,
    items = evicted ++ kept ∧ length kept = C
    ∧ SafeQueue.push_all C [] items = Some kept.
Proof.
  intros Hpos Hlen.
  exists (take (length items - C) items), (drop (length items - C) items).
  split; [by rewrite take_drop|]. split.
  - rewrite length_drop. lia.
  - rewrite push_all_drop by (simpl; lia). done.
Qed.

Lemma push_all_keeps_last_witness :
  ∃ evicted kept,
    ["A"; "B"; "C"; "D"; "E"] = evicted ++ kept ∧ length kept = 3
    ∧ SafeQueue.push_all 3 [] ["A"; "B"; "C"; "D"; "E"] = Some kept.
Proof. apply (push_all_keeps_last 3 ["A"; "B"; "C"; "D"; "E"]); simpl; lia. Defined.

(** C4: whatever pushes and pops are applied to the empty channel, every one
    of them is defined and the channel never holds more than
    [MAX_QUEUE_SIZE] elements. *)
Theorem queue_length_bounded {T : Type} (ops : list (SafeQueue.queue_op T)) :
  ∃ q, SafeQueue.apply_ops MAX_QUEUE_SIZE [] ops = Some q
       ∧ length q ≤ MAX_QUEUE_SIZE.
Proof.
  apply apply_ops_bounded; [apply MAX_QUEUE_SIZE_pos|simpl; lia].
Qed.

(** C9: below capacity [push] keeps the elements as they are, puts the new
    one behind them and makes the channel one longer; at capacity it drops
    the oldest element only, keeps the others in their order and puts the
    new one behind them. *)
Theorem push_frame {T : Type} (q : list T) (v : T) :
  (length q < MAX_QUEUE_SIZE →
     ∃ q', SafeQueue.push MAX_QUEUE_SIZE q v = Some q'
           ∧ q' = q ++ [v] ∧ length q' = length q + 1)
  ∧ (MAX_QUEUE_SIZE ≤ length q →
     ∃ oldest rest, q = oldest :: rest
       ∧ SafeQueue.push MAX_QUEUE_SIZE q v = Some (rest ++ [v])).
Proof.
  split.
  - intros Hlt. exists (q ++ [v]). rewrite push_below by done.
    rewrite length_app. simpl. done.
  - intros Hge. destruct q as [|oldest rest].
    + pose proof MAX_QUEUE_SIZE_pos. simpl in Hge. lia.
    + exists oldest, rest. by rewrite push_full.
Qed.

Lemma push_frame_witness :
  (∃ q', SafeQueue.push MAX_QUEUE_SIZE [1; 2] 3 = Some q'
         ∧ q' = [1; 2] ++ [3] ∧ length q' = length [1; 2] + 1)
  ∧ (∃ oldest rest, replicate 200 7 = oldest :: rest
       ∧ SafeQueue.push MAX_QUEUE_SIZE (replicate 200 7) 9
         = Some (rest ++ [9])).
Proof.
  split.
  - apply (push_frame [1; 2] 3). vm_compute. lia.
  - apply (push_frame (replicate 200 7) 9). vm_compute. lia.
Defined.

(** ** Pacing *)

Lemma interval_floor (R : Z) :
  (0 < R)%Z → (interval R * R ≤ 1000 < (interval R + 1) * R)%Z.
Proof.
  intros HR. unfold interval. rewrite Z.quot_div_nonneg by lia.
  pose proof (Z.mul_div_le 1000 R HR).
  pose proof (Z.mul_succ_div_gt 1000 R HR). lia.
Qed.

Lemma interval_exact_iff (R : Z) :
  (0 < R)%Z → (interval R * R = 1000 ↔ (R | 1000))%Z.
Proof.
  intros HR. split.
  - intros Heq. exists (interval R). lia.
  - intros [k Hk]. unfold interval. rewrite Z.quot_div_nonneg by lia.
    rewrite Hk, Z.div_mul by lia. done.
Qed.

Example interval_50 : interval 50 = 20%Z.
Proof. reflexivity. Qed.

Example interval_3 : interval 3 = 333%Z.
Proof. reflexivity. Qed.

(** At rate 3 the interval is 333 ms, and three of them are not a second;
    at rate 2000 the interval is zero. *)
Lemma interval_not_exact :
  (0 < 3)%Z ∧ (milliseconds (interval 3) * 3)%Z ≠ 1000000000%Z
  ∧ (0 < 2000)%Z ∧ milliseconds (interval 2000) = 0%Z.
Proof. vm_compute. repeat split; congruence. Qed.

(** C5, as the code has it: the tick interval is one second divided by the
    rate and rounded down to whole milliseconds, which is exact only for
    the rates that divide 1000; an iteration that started at [start] runs
    again no earlier than [start] plus the interval, and at that very time
    when its body is over by then. *)
Theorem interval_truncated (R : Z) :
  (0 < R)%Z →
  (interval R * R ≤ 1000 < (interval R + 1) * R)%Z
  ∧ ((interval R * R = 1000)%Z ↔ (R | 1000)%Z)
  ∧ ∀ start work : Z,
      (start + milliseconds (interval R) ≤ producer_iteration R start work)%Z
      ∧ ((0 ≤ work ≤ milliseconds (interval R))%Z →
         producer_iteration R start work
         = (start + milliseconds (interval R))%Z).
Proof.
  intros HR. split; [by apply interval_floor|].
  split; [by apply interval_exact_iff|].
  intros start work. unfold producer_iteration, sleep_until. lia.
Qed.

Lemma interval_truncated_witness :
  (interval 50 * 50 ≤ 1000 < (interval 50 + 1) * 50)%Z
  ∧ ((interval 50 * 50 = 1000)%Z ↔ (50 | 1000)%Z)
  ∧ ∀ start work : Z,
      (start + milliseconds (interval 50) ≤ producer_iteration 50 start work)%Z
      ∧ ((0 ≤ work ≤ milliseconds (interval 50))%Z →
         producer_iteration 50 start work
         = (start + milliseconds (interval 50))%Z).
Proof. apply (interval_truncated 50). lia. Defined.

(** ** Start-up *)

Section MainFacts.
Variable atoi : string → Z.

Lemma main_valid argv output_exists :
  valid_config atoi argv →
  (main atoi argv output_exists).2 = 0%Z
  ∧ existsb is_spawn (main atoi argv output_exists).1 = true.
Proof.
  intros (arg0 & arg1 & arg2 & arg3 & -> & Hdur & Hfps & Hlo & Hhi).
  unfold main. rewrite bool_decide_eq_false_2 by lia.
  rewrite bool_decide_eq_false_2 by lia. simpl. split; [done|].
  destruct output_exists; simpl; done.
Qed.

Lemma main_invalid argv output_exists :
  ¬ valid_config atoi argv →
  (main atoi argv output_exists).2 = 1%Z
  ∧ existsb is_spawn (main atoi argv output_exists).1 = false.
Proof.
  intros Hinv. unfold main.
  destruct argv as [|arg0 [|arg1 [|arg2 [|arg3 [|arg4 argv]]]]]; try done.
  case_bool_decide as Hpos; [done|].
  case_bool_decide as Hmax; [done|].
  exfalso. apply Hinv. exists arg0, arg1, arg2, arg3.
  unfold MAX_CONSUMERS in *. repeat split; lia.
Qed.

Lemma main_spawn_valid argv output_exists :
  existsb is_spawn (main atoi argv output_exists).1 = true →
  valid_config atoi argv.
Proof.
  unfold main.
  destruct argv as [|arg0 [|arg1 [|arg2 [|arg3 [|arg4 argv]]]]]; try done.
  case_bool_decide as Hpos; [done|].
  case_bool_decide as Hmax; [done|].
  intros _. exists arg0, arg1, arg2, arg3.
  unfold MAX_CONSUMERS in *. repeat split; lia.
Qed.

(** C6: [main] creates a thread exactly when it was given three arguments
    whose values are a positive duration, a positive rate and a consumer
    count between 1 and 7; otherwise it returns 1 and its actions contain no
    thread creation. *)
Theorem main_starts_iff_valid (argv : list string) (output_exists : bool) :
  (existsb is_spawn (main atoi argv output_exists).1 = true
   ↔ valid_config atoi argv)
  ∧ (¬ valid_config atoi argv →
     (main atoi argv output_exists).2 ≠ 0%Z
     ∧ Forall (λ a, is_spawn a = false) (main atoi argv output_exists).1).
Proof.
  split.
  - split.
    + apply main_spawn_valid.
    + intros Hv. by apply main_valid.
  - intros Hv. apply (main_invalid _ output_exists) in Hv as [Hcode Hno].
    split; [lia|].
    apply Forall_forall. intros a Ha.
    destruct (is_spawn a) eqn:Hs; [|done].
    assert (existsb is_spawn (main atoi argv output_exists).1 = true)
      as Hex; [|congruence].
    apply existsb_exists. exists a. split; [|done].
    by apply list_elem_of_In.
Qed.

End MainFacts.

(** ** Machine arithmetic *)

Lemma wrap_int_small (z : Z) :
  (INT_MIN ≤ z ≤ INT_MAX)%Z → wrap_int z = z.
Proof.
  unfold wrap_int, INT_MIN, INT_MAX, INT_MODULUS. intros Hz.
  rewrite Z.mod_small by lia. lia.
Qed.

Lemma wrap_int_range (z : Z) : (INT_MIN ≤ wrap_int z ≤ INT_MAX)%Z.
Proof.
  unfold wrap_int, INT_MIN, INT_MAX, INT_MODULUS.
  pose proof (Z.mod_pos_bound (z - -2147483648) 4294967296). lia.
Qed.

Lemma wrap_int_add_l (a b : Z) : wrap_int (wrap_int a + b) = wrap_int (a + b).
Proof.
  unfold wrap_int, INT_MIN, INT_MODULUS. f_equal.
  replace ((a - -2147483648) `mod` 4294967296 + -2147483648 + b
           - -2147483648)%Z
    with ((a - -2147483648) `mod` 4294967296 + b)%Z by lia.
  rewrite Zplus_mod_idemp_l. f_equal. lia.
Qed.

Lemma wrap_int_inj (a b : Z) :
  (0 ≤ a < INT_MODULUS)%Z → (0 ≤ b < INT_MODULUS)%Z →
  wrap_int a = wrap_int b → a = b.
Proof.
  unfold wrap_int, INT_MIN, INT_MODULUS. intros Ha Hb Heq.
  assert ((a - -2147483648) `mod` 4294967296
          = (b - -2147483648) `mod` 4294967296)%Z as Hmod by lia.
  destruct (decide (a < 2147483648)%Z), (decide (b < 2147483648)%Z).
  - rewrite !Z.mod_small in Hmod by lia. lia.
  - rewrite (Z.mod_small (a - _)) in Hmod by lia.
    replace (b - -2147483648)%Z with (b - 2147483648 + 1 * 4294967296)%Z
      in Hmod by lia.
    rewrite Z.mod_add, Z.mod_small in Hmod by lia. lia.
  - rewrite (Z.mod_small (b - _)) in Hmod by lia.
    replace (a - -2147483648)%Z with (a - 2147483648 + 1 * 4294967296)%Z
      in Hmod by lia.
    rewrite Z.mod_add, Z.mod_small in Hmod by lia. lia.
  - replace (a - -2147483648)%Z with (a - 2147483648 + 1 * 4294967296)%Z
      in Hmod by lia.
    replace (b - -2147483648)%Z with (b - 2147483648 + 1 * 4294967296)%Z
      in Hmod by lia.
    rewrite !Z.mod_add, !Z.mod_small in Hmod by lia. lia.
Qed.

Lemma wrap_size_t_small (z : Z) :
  (0 ≤ z < SIZE_MODULUS)%Z → wrap_size_t z = z.
Proof. intros Hz. unfold wrap_size_t. by rewrite Z.mod_small. Qed.


Lemma wrap_size_t_add_l (a b : Z) :
  wrap_size_t (wrap_size_t a + b) = wrap_size_t (a + b).
Proof. unfold wrap_size_t. by rewrite Zplus_mod_idemp_l. Qed.

Example wrap_int_overflow : wrap_int (INT_MAX + 1) = INT_MIN.
Proof. reflexivity. Qed.

(** ** File names *)

Lemma string_length_app (s t : string) :
  String.length (s +:+ t) = String.length s + String.length t.
Proof. induction s as [|c s IH]; simpl; [done|]. by rewrite IH. Qed.

Lemma append_inj_r (s1 s2 t : string) : s1 +:+ t = s2 +:+ t → s1 = s2.
Proof.
  revert s2. induction s1 as [|c1 s1 IH]; intros [|c2 s2] Heq.
  - done.
  - apply (f_equal String.length) in Heq.
    rewrite !string_length_app in Heq. simpl in Heq. lia.
  - apply (f_equal String.length) in Heq.
    rewrite !string_length_app in Heq. simpl in Heq. lia.
  - simpl in Heq. injection Heq as -> Heq. f_equal. by apply IH.
Qed.

Lemma filename_inj (i j : Z) : filename i = filename j → i = j.
Proof.
  unfold filename. intros Heq.
  apply append_inj_r in Heq. apply (inj _) in Heq.
  by apply (inj pretty) in Heq.
Qed.

Example filename_0 : filename 0 = "../output/img_0.jpg".
Proof. reflexivity. Qed.

Example filename_neg : filename (-7) = "../output/img_-7.jpg".
Proof. reflexivity. Qed.

(** ** The threads *)

Section RunFacts.
Context {Mat : Type}.
Variable imencode : Mat → option (list Byte.byte).
Implicit Types (s : @state Mat) (e : @event Mat) (trace : list (@event Mat)).

Lemma run_app s1 trace1 s2 trace2 s3 :
  run imencode s1 trace1 s2 → run imencode s2 trace2 s3 →
  run imencode s1 (trace1 ++ trace2) s3.
Proof.
  intros H1 H2. induction H2 as [|s2 trace2 s3 e s4 _ IH Hstep].
  - by rewrite app_nil_r.
  - rewrite (assoc_L (++)). eapply run_snoc; [by apply IH|done].
Qed.

Lemma run_step s e s' : step imencode s e s' → run imencode s [e] s'.
Proof. intros Hstep. apply (run_snoc _ s [] s); [constructor|done]. Qed.

Lemma run_cons s e s1 trace s2 :
  step imencode s e s1 → run imencode s1 trace s2 →
  run imencode s (e :: trace) s2.
Proof. intros Hstep Hrun. apply (run_app s [e] s1); [by apply run_step|done]. Qed.

End RunFacts.

(** Building a run forwards, one event at a time. *)
Ltac forward :=
  lazymatch goal with
  | |- run _ _ (_ :: _) _ =>
      eapply run_cons; [econstructor; (reflexivity || eassumption)|]
  end.

Section PipelineFacts.
Context {Mat : Type}.
Variable imencode : Mat → option (list Byte.byte).
Implicit Types (s : @state Mat) (e : @event Mat) (trace : list (@event Mat)).

Lemma pushed_snoc trace e :
  pushed (trace ++ [e]) = pushed trace + (if is_push e then 1 else 0).
Proof.
  unfold pushed. rewrite filter_app, length_app. f_equal.
  by destruct e.
Qed.

Lemma generated_snoc trace e :
  generated (trace ++ [e])
  = generated trace + (if is_generated e then 1 else 0).
Proof.
  unfold generated. rewrite filter_app, length_app. f_equal.
  by destruct e.
Qed.

Lemma popped_snoc trace e :
  popped (trace ++ [e]) = popped trace + (if is_pop e then 1 else 0).
Proof.
  unfold popped. rewrite filter_app, length_app. f_equal.
  by destruct e.
Qed.

Lemma indices_snoc trace e :
  indices (trace ++ [e]) = indices trace ++ option_list (index_of e).
Proof.
  unfold indices. rewrite omap_app. f_equal; by destruct e.
Qed.

Lemma written_app trace1 trace2 :
  written (trace1 ++ trace2) = (written trace1 + written trace2)%Z.
Proof.
  unfold written. induction trace1 as [|e trace1 IH]; simpl; [done|].
  rewrite IH. lia.
Qed.

Lemma written_snoc trace e :
  written (trace ++ [e]) = (written trace + bytes_of e)%Z.
Proof. rewrite written_app. unfold written. simpl. lia. Qed.

Lemma written_nonneg trace : (0 ≤ written trace)%Z.
Proof.
  unfold written. induction trace as [|e trace IH]; simpl; [done|].
  destruct e; simpl; lia.
Qed.

Lemma pushed_app trace1 trace2 :
  pushed (trace1 ++ trace2) = pushed trace1 + pushed trace2.
Proof. unfold pushed. by rewrite filter_app, length_app. Qed.

Lemma generated_app trace1 trace2 :
  generated (trace1 ++ trace2) = generated trace1 + generated trace2.
Proof. unfold generated. by rewrite filter_app, length_app. Qed.

Lemma indices_app trace1 trace2 :
  indices (trace1 ++ trace2) = indices trace1 ++ indices trace2.
Proof. unfold indices. by rewrite omap_app. Qed.

(** Replacing the program counter of one consumer. *)
Lemma pending_insert (pcs : list (@consumer_pc Mat)) id pc pc' :
  pcs !! id = Some pc →
  length (filter awaits_index (<[id := pc']> pcs))
  + (if awaits_index pc then 1 else 0)
  = length (filter awaits_index pcs) + (if awaits_index pc' then 1 else 0).
Proof.
  revert id. induction pcs as [|pc0 pcs IH]; intros [|id] Hlook;
    simplify_eq/=.
  - rewrite !filter_cons.
    destruct (awaits_index pc), (awaits_index pc'); simpl;
      repeat case_decide; simpl; try done; lia.
  - rewrite !filter_cons. specialize (IH _ Hlook).
    destruct (decide (awaits_index pc0)); simpl; lia.
Qed.

Lemma invariant_init n : invariant imencode [] (init n).
Proof.
  split; simpl; try done.
  - unfold pending. simpl. induction n as [|n IH]; simpl; [done|].
    rewrite filter_cons. simpl. done.
  - lia.
  - intros id file buffer Hlook. apply lookup_replicate_1 in Hlook as [? _]. done.
Qed.

Lemma files_snoc trace e :
  files (trace ++ [e])
  = files trace ++ option_list (filename <$> index_of e).
Proof.
  unfold files. rewrite indices_snoc, fmap_app. f_equal.
  by destruct (index_of e).
Qed.

Lemma opened_snoc trace e :
  opened (trace ++ [e]) = opened trace ++ option_list (opened_file e).
Proof. unfold opened. rewrite omap_app. f_equal; by destruct e. Qed.

Lemma encoded_and_opened_snoc trace e file buffer :
  encoded_and_opened imencode trace file buffer →
  encoded_and_opened imencode (trace ++ [e]) file buffer.
Proof.
  intros (img & index & Henc & Hfile & Hopen). exists img, index.
  split; [done|]. split; [done|].
  rewrite opened_snoc. apply elem_of_app. by left.
Qed.

Lemma lookup_set_consumer_CWrite (Q : string → list Byte.byte → Prop)
  (pcs : list (@consumer_pc Mat)) (id : nat) pc id' file buffer :
  (∀ id file buffer, pcs !! id = Some (CWrite file buffer) → Q file buffer) →
  (∀ file buffer, pc = CWrite file buffer → Q file buffer) →
  <[id := pc]> pcs !! id' = Some (CWrite file buffer) →
  Q file buffer.
Proof.
  intros Hall Hpc Hlook. destruct (decide (id = id')) as [->|Hne].
  - destruct (decide (id' < length pcs)) as [Hlt|Hge].
    + rewrite list_lookup_insert_eq in Hlook by done.
      injection Hlook as ->. by apply Hpc.
    + rewrite list_insert_ge in Hlook by lia. by eapply Hall.
  - rewrite list_lookup_insert_ne in Hlook by done. by eapply Hall.
Qed.

Ltac use_pc :=
  repeat match goal with
  | H : producer _ = _ |- _ => rewrite H in *; clear H
  | H : consumers ?s !! ?id = Some ?pc
    |- context [filter _ (<[?id := ?pc']> (consumers ?s))] =>
      let Hins := fresh "Hins" in
      pose proof (pending_insert (consumers s) id pc pc' H) as Hins;
      simpl in Hins; clear H
  | H : SafeQueue.push _ _ _ = Some _ |- _ =>
      let Hlen := fresh "Hlen" in
      pose proof (push_length _ _ _ _ H) as Hlen; clear H;
      case_decide
  | H : SafeQueue.pop _ _ = SafeQueue.PopTrue _ _ |- _ =>
      apply pop_true_inv in H; rewrite H in *; simpl in *
  end.

Lemma step_invariant trace s e s' :
  invariant imencode trace s → step imencode s e s' →
  invariant imencode (trace ++ [e]) s'.
Proof.
  intros [HG HP HS HI HQ HB HX HL HE] Hstep.
  assert (∀ id file buffer,
            consumers s !! id = Some (CWrite file buffer) →
            encoded_and_opened imencode (trace ++ [e]) file buffer) as HE'.
  { intros id file buffer Hlook. eapply encoded_and_opened_snoc, HE, Hlook. }
  clear HE.
  destruct Hstep; split; simpl;
    rewrite ?pushed_snoc, ?generated_snoc, ?popped_snoc, ?indices_snoc,
      ?written_snoc; simpl;
    rewrite ?app_nil_r, ?Nat.add_0_r, ?Z.add_0_r, ?length_app; try done.
  all: unfold pending, uncounted in *; simpl in *.
  all: try (intros ???; eapply lookup_set_consumer_CWrite; [exact HE'|];
            by eauto).
  all: try (use_pc; lia).
  - rewrite HG, wrap_int_add_l. f_equal. lia.
  - rewrite HS, wrap_int_add_l. f_equal. lia.
  - rewrite Nat.add_1_r, seqZ_S, fmap_app, <- HX. simpl.
    by rewrite HS.
  - intros id' file' buffer' Hlook.
    eapply lookup_set_consumer_CWrite; [exact HE'| |exact Hlook].
    intros ?? [= <- <-]. exists img, index.
    split; [done|]. split; [done|].
    rewrite opened_snoc. apply elem_of_app. right. by left.
  - rewrite HB, wrap_size_t_add_l. done.
Qed.

Lemma run_invariant n trace s :
  run imencode (init n) trace s → invariant imencode trace s.
Proof.
  intros Hrun. remember (init n) as s0 eqn:Hs0.
  induction Hrun as [|s0 trace s1 e s2 _ IH Hstep]; subst.
  - apply invariant_init.
  - eapply step_invariant; [by apply IH|done].
Qed.

Lemma pending_all_done (pcs : list (@consumer_pc Mat)) :
  (∀ pc, pc ∈ pcs → pc = CDone) → length (filter awaits_index pcs) = 0.
Proof.
  induction pcs as [|pc pcs IH]; intros Hall; [done|].
  rewrite filter_cons, (Hall pc) by left. simpl.
  apply IH. intros pc' Hin. apply Hall. by right.
Qed.

Lemma held_insert (pcs : list (@consumer_pc Mat)) id pc pc' :
  pcs !! id = Some pc →
  option_list (held_file pc) ++ omap held_file (<[id := pc']> pcs)
  ≡ₚ option_list (held_file pc') ++ omap held_file pcs.
Proof.
  revert id. induction pcs as [|pc0 pcs IH]; intros [|id] Hlook;
    simplify_eq/=.
  - destruct (held_file pc), (held_file pc'); simpl; try done.
    apply perm_swap.
  - specialize (IH _ Hlook).
    destruct (held_file pc0) as [file0|]; simpl; [|done].
    rewrite <- !Permutation_middle. by f_equiv.
Qed.

(** Every file that was opened, and every file a consumer is about to open,
    was named for a different payload. *)
Lemma opened_submseteq n trace s :
  run imencode (init n) trace s →
  opened trace ++ omap held_file (consumers s) ⊆+ files trace.
Proof.
  intros Hrun. remember (init n) as s0 eqn:Hs0.
  induction Hrun as [|s0 trace s1 e s2 _ IH Hstep]; subst.
  - simpl. induction n as [|n IHn]; [done|]. exact IHn.
  - specialize (IH eq_refl). rewrite opened_snoc, files_snoc.
    destruct Hstep; simpl; rewrite ?app_nil_r; try done.
    all: match goal with
         | H : consumers ?s !! ?id = Some ?pc
           |- context [<[?id := ?pc']> (consumers ?s)] =>
             pose proof (held_insert (consumers s) id pc pc' H) as Hp;
             simpl in Hp
         end.
    + by rewrite Hp.
    + by rewrite Hp.
    + rewrite Hp, <- Permutation_middle.
      apply (submseteq_cons_middle _ _ _ []). by rewrite app_nil_r.
    + etrans; [|exact IH]. rewrite <- Hp.
      apply submseteq_skips_l, submseteq_cons. done.
    + etrans; [|exact IH]. rewrite <- Hp.
      apply submseteq_skips_l, submseteq_cons. done.
    + rewrite <- (assoc_L (++)). simpl. by rewrite Hp.
    + by rewrite Hp.
Qed.

(** What the counters are, in terms of what the run has shown, as long as
    nothing has overflowed. *)
Lemma counters_exact n trace s :
  run imencode (init n) trace s →
  (Z.of_nat (pushed trace) ≤ INT_MAX)%Z →
  imagesGenerated s = Z.of_nat (generated trace)
  ∧ imagesSaved s = Z.of_nat (length (indices trace))
  ∧ length (indices trace) ≤ popped trace ≤ pushed trace
  ∧ generated trace ≤ pushed trace.
Proof.
  intros Hrun Hbound. destruct (run_invariant _ _ _ Hrun)
    as [HG HP HS HI HQ _ _ _ _].
  unfold INT_MAX in Hbound.
  rewrite HG, HS, !wrap_int_small by (unfold INT_MIN, INT_MAX; lia). lia.
Qed.

Lemma bytes_exact n trace s :
  run imencode (init n) trace s →
  (written trace < SIZE_MODULUS)%Z →
  totalBytesWritten s = written trace.
Proof.
  intros Hrun Hbound. rewrite (inv_bytes _ _ _ (run_invariant _ _ _ Hrun)).
  apply wrap_size_t_small. pose proof (written_nonneg trace). lia.
Qed.

(** Every update of a counter is a [fetch_add] of a non-negative amount:
    one for the two image counters, the length of the buffer for the bytes;
    no other step touches a counter. *)
Lemma step_counters s e s' :
  step imencode s e s' →
  imagesGenerated s'
  = (if is_generated e then wrap_int (imagesGenerated s + 1)
     else imagesGenerated s)
  ∧ imagesSaved s'
    = (match index_of e with
       | Some _ => wrap_int (imagesSaved s + 1)
       | None => imagesSaved s
       end)
  ∧ totalBytesWritten s'
    = (match e with
       | EvWritten _ _ bytes =>
           wrap_size_t (totalBytesWritten s + Z.of_nat bytes)
       | _ => totalBytesWritten s
       end).
Proof. by destruct 1. Qed.

(** A payload whose encoding or whose file fails has raised [imagesSaved]
    all the same, and has left [totalBytesWritten] alone. *)
Lemma failed_sink_steps s id index s1 e s2 :
  step imencode s (EvIndex id index) s1 →
  step imencode s1 e s2 →
  e = EvEncodeFailed id index ∨ e = EvOpenFailed id (filename index) →
  imagesSaved s2 = wrap_int (imagesSaved s + 1)
  ∧ totalBytesWritten s2 = totalBytesWritten s.
Proof.
  intros H1 H2 He.
  apply step_counters in H1 as (_ & HS1 & HB1).
  apply step_counters in H2 as (_ & HS2 & HB2).
  destruct He as [-> | ->]; simpl in *; split; congruence.
Qed.

(** One full turn of the pipeline with a single consumer: an image is
    generated, pushed, counted, popped, numbered, encoded and written. *)
Lemma run_cycle img buffer g sv b :
  imencode img = Some buffer →
  run imencode (State [] true g sv b PLoop [CPop])
    [EvProduce img; EvPush img; EvGenerated; EvPop 0 img; EvIndex 0 sv;
     EvOpened 0 (filename sv); EvWritten 0 (filename sv) (length buffer)]
    (State [] true (wrap_int (g + 1)) (wrap_int (sv + 1))
       (wrap_size_t (b + Z.of_nat (length buffer))) PLoop [CPop]).
Proof.
  intros Henc. repeat forward. apply run_nil.
Qed.

Lemma run_cycles img buffer (z : Z) :
  imencode img = Some buffer → (0 ≤ z)%Z →
  ∃ trace,
    run imencode (init 1) trace
      (State [] true (wrap_int z) (wrap_int z)
         (wrap_size_t (z * Z.of_nat (length buffer))) PLoop [CPop])
    ∧ indices trace = wrap_int <$> seqZ 0 z
    ∧ opened trace = files trace.
Proof.
  intros Henc. revert z. apply natlike_ind.
  - exists []. split; [apply run_nil|done].
  - intros z Hz (trace & Hrun & Hidx & Hopen).
    pose proof (run_cycle img buffer (wrap_int z) (wrap_int z)
                  (wrap_size_t (z * Z.of_nat (length buffer))) Henc) as Hc.
    rewrite !wrap_int_add_l, wrap_size_t_add_l in Hc.
    replace (z * Z.of_nat (length buffer) + Z.of_nat (length buffer))%Z
      with (Z.succ z * Z.of_nat (length buffer))%Z in Hc by lia.
    eexists. split; [exact (run_app _ _ _ _ _ _ Hrun Hc)|]. split.
    + rewrite indices_app, Hidx, <- Z.add_1_r.
      rewrite (seqZ_app 0 z 1), fmap_app by lia. f_equal.
    + unfold opened, files in *.
      rewrite omap_app, indices_app, fmap_app, Hopen. done.
Qed.

Lemma fmap_seqZ_repeat (f : Z → Z) (m : Z) :
  (0 < m)%Z → f 0%Z = f m → ¬ NoDup (f <$> seqZ 0 (m + 1)).
Proof.
  intros Hm Heq Hnd.
  rewrite seqZ_app, (seqZ_cons 0 m), !fmap_app, fmap_cons in Hnd by lia.
  rewrite (seqZ_cons (0 + m) 1), (seqZ_nil _ (Z.pred 1)) in Hnd by lia.
  simpl in Hnd. apply NoDup_cons in Hnd as [Hnot _]. apply Hnot.
  apply elem_of_app. right. rewrite Z.add_0_l, <- Heq. by left.
Qed.

(** C7, as the code has it: in a run that has pushed at most [INT_MAX]
    payloads and added fewer than 2^64 bytes, none of the three counters is
    smaller in a later state than in an earlier one, and when all threads
    have returned [imagesSaved] is at most [imagesGenerated]; a step leaves
    a counter alone or is a [fetch_add] of one, or of a buffer's length. *)
Theorem counters_monotone n trace1 s1 trace2 s2 :
  run imencode (init n) trace1 s1 →
  run imencode s1 trace2 s2 →
  (Z.of_nat (pushed (trace1 ++ trace2)) ≤ INT_MAX)%Z →
  (written (trace1 ++ trace2) < SIZE_MODULUS)%Z →
  (imagesGenerated s1 ≤ imagesGenerated s2)%Z
  ∧ (imagesSaved s1 ≤ imagesSaved s2)%Z
  ∧ (totalBytesWritten s1 ≤ totalBytesWritten s2)%Z
  ∧ (all_joined s2 → (imagesSaved s2 ≤ imagesGenerated s2)%Z)
  ∧ (∀ s e s', step imencode s e s' →
       (imagesGenerated s' = imagesGenerated s
        ∨ imagesGenerated s' = (fetch_add_int (imagesGenerated s) 1).2)
       ∧ (imagesSaved s' = imagesSaved s
          ∨ imagesSaved s' = (fetch_add_int (imagesSaved s) 1).2)
       ∧ (totalBytesWritten s' = totalBytesWritten s
          ∨ ∃ bytes : nat,
              totalBytesWritten s'
              = (fetch_add_size_t (totalBytesWritten s)
                   (Z.of_nat bytes)).2)).
Proof.
  intros Hrun1 Hrun12 Hpush Hbytes.
  pose proof (run_app _ _ _ _ _ _ Hrun1 Hrun12) as Hrun2.
  pose proof (written_nonneg trace2) as Hw2.
  rewrite pushed_app in Hpush. rewrite written_app in Hbytes.
  destruct (counters_exact _ _ _ Hrun1) as (HG1 & HS1 & _); [lia|].
  destruct (counters_exact _ _ _ Hrun2) as (HG2 & HS2 & _);
    [rewrite pushed_app; lia|].
  rewrite (bytes_exact _ _ _ Hrun1) by lia.
  rewrite (bytes_exact _ _ _ Hrun2) by (rewrite written_app; lia).
  rewrite HG1, HS1, HG2, HS2.
  rewrite generated_app, indices_app, length_app, written_app.
  split; [lia|]. split; [lia|]. split; [lia|]. split.
  - intros [Hprod Hcons].
    destruct (run_invariant _ _ _ Hrun2) as [_ HP _ HI HQ _ _ _ _].
    unfold uncounted, pending in *.
    rewrite Hprod in HP. rewrite (pending_all_done _ Hcons) in HI.
    rewrite generated_app, indices_app, length_app in *. lia.
  - intros s e s' Hstep.
    destruct (step_counters _ _ _ Hstep) as (HG & HS & HB).
    rewrite HG, HS, HB. repeat split.
    + destruct (is_generated e); auto.
    + destruct (index_of e); auto.
    + destruct e; eauto.
Qed.

(** C8, as the code has it: the payloads are numbered by [fetch_add] on a
    32-bit counter, the k-th of them (from zero) getting k wrapped to [int];
    so as long as at most 2^32 payloads have been popped, no two of them
    have the same number, no two of their file names are equal, and no file
    has been opened twice. *)
Theorem indices_distinct n trace s :
  run imencode (init n) trace s →
  (Z.of_nat (popped trace) ≤ INT_MODULUS)%Z →
  indices trace = wrap_int <$> seqZ 0 (Z.of_nat (length (indices trace)))
  ∧ NoDup (indices trace)
  ∧ NoDup (files trace)
  ∧ NoDup (opened trace).
Proof.
  intros Hrun Hbound.
  destruct (run_invariant _ _ _ Hrun) as [_ _ _ HI _ _ HX _ _].
  assert (NoDup (indices trace)) as Hnd.
  { rewrite HX. apply NoDup_fmap_2_strong; [|apply NoDup_seqZ].
    intros x y Hx%elem_of_seqZ Hy%elem_of_seqZ. apply wrap_int_inj; lia. }
  assert (NoDup (files trace)) as Hfiles.
  { unfold files. apply NoDup_fmap_2_strong; [|done].
    intros x y _ _. apply filename_inj. }
  split; [done|]. split; [done|]. split; [done|].
  destruct (submseteq_Permutation _ _ (opened_submseteq _ _ _ Hrun))
    as [rest Hperm].
  rewrite Hperm, <- (assoc_L (++)) in Hfiles.
  by apply NoDup_app in Hfiles as [? _].
Qed.




End PipelineFacts.

(** ** The model at work *)

(** One image goes through the pipeline and the run shuts down. *)
Example sample_run :
  run sample_imencode (init 1)
    [EvProduce sample_img; EvPush sample_img; EvGenerated;
     EvPop 0 sample_img; EvIndex 0 0; EvOpened 0 (filename 0);
     EvWritten 0 (filename 0) (length sample_img); EvShutdown; EvPopFalse 0; EvProducerExit]
    (State [] false 1 1 3 PDone [CDone]).
Proof. repeat forward. apply run_nil. Qed.

(** The same run up to the moment the consumer has opened its file. *)
Example sample_run_opened :
  run sample_imencode (init 1)
    [EvProduce sample_img; EvPush sample_img; EvGenerated;
     EvPop 0 sample_img; EvIndex 0 0; EvOpened 0 (filename 0)]
    (State [] true 1 1 0 PLoop [CWrite (filename 0) sample_img]).
Proof. repeat forward. apply run_nil. Qed.

(** The run of two consumers and three images. *)
Example busy_run_opened :
  run sample_imencode (init 2) busy_trace_opened busy_state_opened.
Proof. unfold busy_trace_opened. repeat forward. apply run_nil. Qed.

Example busy_run : run sample_imencode (init 2) busy_trace busy_state.
Proof.
  eapply run_app; [apply busy_run_opened|].
  unfold busy_state_opened. repeat forward. apply run_nil.
Qed.

Example busy_run_indices :
  indices busy_trace = [0; 1; 2]%Z
  ∧ files busy_trace = [filename 0; filename 1; filename 2]
  ∧ opened busy_trace = [filename 1; filename 2]
  ∧ pushed_imgs busy_trace_opened
    = [sample_img; sample_img_refused; sample_img_2]
  ∧ popped_imgs busy_trace_opened = [sample_img; sample_img_refused]
  ∧ own 0 busy_trace_opened
    = [EvPop 0 sample_img; EvIndex 0 1; EvOpened 0 (filename 1)].
Proof. repeat split; reflexivity. Qed.

(** C1, at a payload whose file cannot be opened: the run produces one
    image, pops it, fails to open [img_0.jpg] and writes nothing, and ends
    with every thread joined, [imagesSaved] at 1 like [imagesGenerated], and
    [totalBytesWritten] at 0. *)
Theorem failed_sink_counted_as_saved :
  let trace :=
    [EvProduce sample_img; EvPush sample_img; EvGenerated;
     EvPop 0 sample_img; EvIndex 0 0; EvOpenFailed 0 (filename 0);
     EvShutdown; EvPopFalse 0; EvProducerExit] in
  let final := State [] false 1 1 0 PDone [CDone] in
  run sample_imencode (init 1) trace final
  ∧ all_joined final
  ∧ written trace = 0%Z
  ∧ imagesGenerated final = 1%Z
  ∧ imagesSaved final = 1%Z
  ∧ totalBytesWritten final = 0%Z.
Proof.
  intros trace final. split; [|split].
  - subst trace final. repeat forward. apply run_nil.
  - split; [done|]. intros pc Hin. by apply list_elem_of_singleton in Hin.
  - done.
Qed.

(** The same with an image that [imencode] refuses. *)
Example failed_encode_counted_as_saved :
  run sample_imencode (init 1)
    [EvProduce []; EvPush []; EvGenerated; EvPop 0 []; EvIndex 0 0;
     EvEncodeFailed 0 0; EvShutdown; EvPopFalse 0; EvProducerExit]
    (State [] false 1 1 0 PDone [CDone]).
Proof. repeat forward. apply run_nil. Qed.

Lemma counters_monotone_witness :
  let s1 : @state (list Byte.byte) := init 1 in
  let s2 : @state (list Byte.byte) := State [] false 1 1 3 PDone [CDone] in
  (imagesGenerated s1 ≤ imagesGenerated s2)%Z
  ∧ (imagesSaved s1 ≤ imagesSaved s2)%Z
  ∧ (totalBytesWritten s1 ≤ totalBytesWritten s2)%Z
  ∧ (all_joined s2 → (imagesSaved s2 ≤ imagesGenerated s2)%Z).
Proof.
  intros s1 s2.
  destruct (counters_monotone sample_imencode 1 [] s1 _ s2
              (run_nil _ _) sample_run) as (HG & HS & HB & HJ & _).
  - by vm_compute.
  - by vm_compute.
  - auto.
Defined.

(** C7 fails once [imagesGenerated] reaches [INT_MAX]: after 2^31 - 1 full
    turns the next count takes it to [INT_MIN], and the run can end there
    with every thread joined and [imagesSaved] above [imagesGenerated]. *)
Lemma counters_overflow :
  let before :=
    State [sample_img] false INT_MAX INT_MAX 6442450941 PCount [CDone] in
  let after :=
    State [sample_img] false INT_MIN INT_MAX 6442450941 PLoop [CDone] in
  let final :=
    State [sample_img] false INT_MIN INT_MAX 6442450941 PDone [CDone] in
  ∃ trace,
    run sample_imencode (init 1) trace before
    ∧ step sample_imencode before EvGenerated after
    ∧ (imagesGenerated after < imagesGenerated before)%Z
    ∧ run sample_imencode after [EvProducerExit] final
    ∧ all_joined final
    ∧ (imagesGenerated final < imagesSaved final)%Z.
Proof.
  intros before after final.
  destruct (run_cycles sample_imencode sample_img sample_img INT_MAX eq_refl)
    as (trace & Hrun & _ & _); [done|].
  exists (trace ++ [EvProduce sample_img; EvShutdown; EvPopFalse 0;
                    EvPush sample_img]).
  split; [|split; [|split; [|split; [|split]]]].
  - eapply run_app; [exact Hrun|]. repeat forward. apply run_nil.
  - by apply (step_generated sample_imencode before).
  - done.
  - subst after final. repeat forward. apply run_nil.
  - split; [done|]. intros pc Hin. by apply list_elem_of_singleton in Hin.
  - done.
Qed.

Lemma indices_distinct_witness :
  indices busy_trace
  = wrap_int <$> seqZ 0 (Z.of_nat (length (indices busy_trace)))
  ∧ NoDup (indices busy_trace)
  ∧ NoDup (files busy_trace)
  ∧ NoDup (opened busy_trace).
Proof.
  apply (indices_distinct sample_imencode 2 busy_trace busy_state busy_run).
  by vm_compute.
Defined.

(** C8 fails after 2^32 payloads: the next one is numbered 0 again, like the
    first, and [img_0.jpg] is opened and written a second time. *)
Lemma indices_repeat :
  ∃ trace s,
    run sample_imencode (init 1) trace s
    ∧ indices trace = wrap_int <$> seqZ 0 (INT_MODULUS + 1)
    ∧ wrap_int 0 = wrap_int INT_MODULUS
    ∧ ¬ NoDup (indices trace)
    ∧ ¬ NoDup (files trace)
    ∧ ¬ NoDup (opened trace).
Proof.
  destruct (run_cycles sample_imencode sample_img sample_img
              (INT_MODULUS + 1) eq_refl) as (trace & Hrun & Hidx & Hopen);
    [done|].
  assert (¬ NoDup (indices trace)) as Hdup.
  { rewrite Hidx. by apply fmap_seqZ_repeat. }
  assert (¬ NoDup (files trace)) as Hfiles.
  { intros Hnd. apply Hdup. by apply NoDup_fmap_1 in Hnd. }
  exists trace. eexists. split; [exact Hrun|].
  split; [done|]. split; [done|]. split; [done|]. split; [done|].
  by rewrite Hopen.
Qed.


Example main_two_consumers :
  main atoi_decimal ["siss"; "300"; "50"; "2"] false
  = ([PrintBanner 50 300 2; CreateOutputDir; SpawnProducer;
      SpawnConsumer 0; SpawnConsumer 1; SleepFor 300; StoreRunningFalse;
      NotifyAll; JoinProducer; JoinConsumer 0; JoinConsumer 1;
      PrintSummary], 0%Z).
Proof. reflexivity. Qed.

Example main_zero_rate :
  main atoi_decimal ["siss"; "300"; "0"; "2"] false = ([ErrNotPositive], 1%Z).
Proof. reflexivity. Qed.

Example main_not_a_number :
  main atoi_decimal ["siss"; "300"; "fast"; "2"] false
  = ([ErrNotPositive], 1%Z).
Proof. reflexivity. Qed.

Example main_missing_argument :
  main atoi_decimal ["siss"; "300"; "50"] false = ([ErrUsage], 1%Z).
Proof. reflexivity. Qed.

(** At 50 images a second an iteration that is over after 5 ms starts the
    next one 20 ms after it started itself; one that takes 30 ms starts the
    next one at once. *)
Example producer_starts_50 :
  producer_starts 50 0 [5000000; 30000000; 1000000]%Z
  = [0; 20000000; 50000000]%Z.
Proof. reflexivity. Qed.

Lemma main_starts_iff_valid_witness :
  existsb is_spawn (main atoi_decimal ["siss"; "300"; "50"; "7"] true).1
  = true
  ∧ (main atoi_decimal ["siss"; "300"; "50"; "8"] true).2 ≠ 0%Z
  ∧ Forall (λ a, is_spawn a = false)
      (main atoi_decimal ["siss"; "300"; "50"; "8"] true).1.
Proof.
  split.
  - apply (main_starts_iff_valid atoi_decimal ["siss"; "300"; "50"; "7"] true).
    exists "siss", "300", "50", "7". by vm_compute.
  - apply (main_starts_iff_valid atoi_decimal ["siss"; "300"; "50"; "8"] true).
    intros (arg0 & arg1 & arg2 & arg3 & [= <- <- <- <-] & _ & _ & _ & Hmax).
    vm_compute in Hmax. by apply Hmax.
Defined.


(* ===================================================================== *)
(** * Part III: further properties of the code                            *)
(* ===================================================================== *)

(** ** SafeQueue: size, empty, and pushes followed by pops *)

(** X1: at a positive capacity a push onto a queue within its capacity is
    defined, makes the size the smaller of the old size plus one and the
    capacity, leaves the new element at the back, and leaves a queue that is
    not empty, on which [pop] returns true whatever [running] is. *)
Theorem push_size_back_pop {T : Type} (capacity : nat) (q : list T) (v : T)
    (running : bool) :
  0 < capacity → SafeQueue.size q ≤ capacity →
  ∃ q', SafeQueue.push capacity q v = Some q'
    ∧ SafeQueue.size q' = Nat.min (S (SafeQueue.size q)) capacity
    ∧ last q' = Some v
    ∧ SafeQueue.empty q' = false
    ∧ ∃ oldest rest,
        SafeQueue.pop q' running = SafeQueue.PopTrue oldest rest
        ∧ q' = oldest :: rest.
Proof.
  unfold SafeQueue.size. intros Hpos Hle.
  destruct (push_defined capacity q v Hpos) as [q' Hq'].
  exists q'. split; [done|]. split.
  { rewrite (push_length _ _ _ _ Hq'). case_decide; lia. }
  assert (∃ front, q' = front ++ [v]) as [front ->].
  { unfold SafeQueue.push in Hq'. case_decide.
    - destruct q as [|x q]; simplify_eq/=. eauto.
    - simplify_eq/=. eauto. }
  split; [apply last_snoc|].
  destruct front as [|x front]; simpl.
  - split; [done|]. by exists v, [].
  - split; [done|]. by exists x, (front ++ [v]).
Qed.

Lemma push_size_back_pop_witness :
  ∃ q', SafeQueue.push 2 [1; 2] 3 = Some q'
    ∧ SafeQueue.size q' = Nat.min (S (SafeQueue.size [1; 2])) 2
    ∧ last q' = Some 3
    ∧ SafeQueue.empty q' = false
    ∧ ∃ oldest rest,
        SafeQueue.pop q' true = SafeQueue.PopTrue oldest rest
        ∧ q' = oldest :: rest.
Proof. apply (push_size_back_pop 2 [1; 2] 3 true); vm_compute; lia. Defined.

(** X2: at a positive capacity [C], pushing any items onto the empty queue
    and then popping from the closed queue hands out the last [C] of the
    items, in the order in which they were pushed, and then only false;
    when there are at most [C] items, none is lost. *)
Theorem push_all_then_pop_closed {T : Type} (C : nat) (items : list T)
    (m : nat) :
  0 < C →
  ∃ q, SafeQueue.push_all C [] items = Some q
    ∧ SafeQueue.pop_closed (length q + m) q
      = (Some <$> drop (length items - C) items) ++ replicate m None
    ∧ (length items ≤ C → q = items).
Proof.
  intros Hpos. exists (drop (length items - C) items).
  rewrite push_all_drop by (simpl; lia). simpl.
  split; [done|]. split; [apply pop_closed_drains|].
  intros Hle. by replace (length items - C) with 0 by lia.
Qed.

Lemma push_all_then_pop_closed_witness :
  ∃ q, SafeQueue.push_all 2 [] [1; 2; 3] = Some q
    ∧ SafeQueue.pop_closed (length q + 1) q
      = (Some <$> drop (length [1; 2; 3] - 2) [1; 2; 3]) ++ replicate 1 None
    ∧ (length [1; 2; 3] ≤ 2 → q = [1; 2; 3]).
Proof. apply (push_all_then_pop_closed 2 [1; 2; 3] 1). lia. Defined.

(** ** Pacing over many iterations *)

(** X3: when the body of every iteration is over within the interval,
    iteration i starts at the first start plus i intervals plus the delays
    of the wake-ups before it: the time the bodies take adds no drift, only
    late wake-ups do. *)
Theorem producer_drift_is_lateness (R start : Z) (iterations : list (Z * Z))
    (i : nat) (t : Z) :
  (0 < R)%Z →
  Forall (λ it, 0 ≤ it.1 ≤ milliseconds (interval R))%Z iterations →
  producer_starts_late R start iterations !! i = Some t →
  t = (start + Z.of_nat i * milliseconds (interval R)
       + foldr Z.add 0 (snd <$> take i iterations))%Z.
Proof.
  intros _. revert start i t.
  induction iterations as [|[work late] iterations IH];
    intros start i t Hworks Hlook; [done|].
  apply Forall_cons in Hworks as [Hwork Hworks]. simpl in Hwork.
  destruct i as [|i]; simpl in Hlook.
  - injection Hlook as <-. simpl. lia.
  - apply IH in Hlook; [|done]. rewrite Hlook. csimpl.
    unfold producer_iteration_late, producer_iteration, sleep_until. lia.
Qed.

Lemma producer_drift_is_lateness_witness :
  40120000%Z
  = (0 + Z.of_nat 2 * milliseconds (interval 50)
     + foldr Z.add 0
         (snd <$> take 2 [(5000000, 120000); (20000000, 0);
                          (1000000, 183000)]))%Z.
Proof.
  apply (producer_drift_is_lateness 50 0
           [(5000000, 120000); (20000000, 0); (1000000, 183000)]%Z 2).
  - lia.
  - repeat constructor; vm_compute; congruence.
  - reflexivity.
Defined.

Example producer_starts_late_sample :
  producer_starts_late 50 0
    [(5000000, 120000); (20000000, 0); (1000000, 183000)]%Z
  = [0; 20120000; 40120000]%Z.
Proof. reflexivity. Qed.

(** X4: the producer never starts iterations faster than the rate allows:
    whatever the bodies take, the i-th iteration starts no earlier than the
    first start plus i intervals. *)
Theorem producer_starts_rate_cap (R start : Z) (works : list Z) (i : nat)
    (t : Z) :
  (0 < R)%Z →
  producer_starts R start works !! i = Some t →
  (start + Z.of_nat i * milliseconds (interval R) ≤ t)%Z.
Proof.
  intros _. revert start i t.
  induction works as [|work works IH]; intros start [|i] t Hlook;
    simplify_eq/=.
  - lia.
  - apply IH in Hlook. unfold producer_iteration, sleep_until in Hlook. lia.
Qed.

Lemma producer_starts_rate_cap_witness :
  (0 + Z.of_nat 2 * milliseconds (interval 50) ≤ 50000000)%Z.
Proof.
  apply (producer_starts_rate_cap 50 0 [5000000; 30000000; 1000000]%Z 2);
    [lia|reflexivity].
Defined.

(** X5: a rate above 1000 images a second gives the interval zero, and only
    such a rate does; the producer then does not wait at all, the next
    iteration starting as soon as the body is over. *)
Theorem interval_zero_above_1000 (R : Z) :
  (0 < R)%Z →
  (interval R = 0 ↔ 1000 < R)%Z
  ∧ ((1000 < R)%Z → ∀ start work : Z,
       (0 ≤ work)%Z → producer_iteration R start work = (start + work)%Z).
Proof.
  intros HR. pose proof (interval_floor R HR) as [Hlo Hhi].
  assert (0 ≤ interval R)%Z as Hnn.
  { unfold interval. apply Z.quot_pos; lia. }
  assert (interval R = 0 ↔ 1000 < R)%Z as Hiff.
  { split; [intros Hz; rewrite Hz in Hhi; lia|]. intros HR'. nia. }
  split; [done|]. intros HR' start work Hwork.
  apply Hiff in HR'. unfold producer_iteration, sleep_until, milliseconds.
  rewrite HR'. lia.
Qed.

Lemma interval_zero_above_1000_witness :
  (interval 2000 = 0 ↔ 1000 < 2000)%Z
  ∧ ((1000 < 2000)%Z → ∀ start work : Z,
       (0 ≤ work)%Z → producer_iteration 2000 start work = (start + work)%Z).
Proof. apply (interval_zero_above_1000 2000). lia. Defined.

(** ** The producer's rate report *)

Lemma duration_cast_seconds_ge_1 (d : Z) :
  (1 ≤ duration_cast_seconds d ↔ 1000000000 ≤ d)%Z.
Proof.
  unfold duration_cast_seconds. destruct (decide (0 ≤ d)%Z) as [Hd|Hd].
  - rewrite Z.quot_div_nonneg by lia. split; intros H.
    + pose proof (Z.mul_div_le d 1000000000). lia.
    + apply Z.div_le_lower_bound; lia.
  - split; [|lia]. intros H.
    pose proof (Z.quot_opp_l d 1000000000) as Hopp.
    pose proof (Z.quot_pos (- d) 1000000000). lia.
Qed.

Lemma count_and_report_all_defined (nows : list Z) : ∀ st,
  (0 ≤ fpsCounter st)%Z →
  (fpsCounter st + Z.of_nat (length nows) ≤ INT_MAX)%Z →
  is_Some (count_and_report_all st nows).
Proof.
  induction nows as [|now nows IH]; intros st Hnn Hmax; [by eexists|].
  rewrite length_cons, Nat2Z.inj_succ in Hmax.
  cbn [count_and_report_all]. unfold count_and_report.
  rewrite bool_decide_eq_false_2 by lia.
  case_bool_decide as Hsec; cbn [mbind option_bind].
  - destruct (IH (ReportState now 0)) as [[lines st'] ->];
      [simpl; lia|simpl; unfold INT_MAX in *; lia|]. by eexists.
  - destruct (IH (ReportState (lastPrint st) (fpsCounter st + 1)))
      as [[lines st'] ->]; [simpl; lia|simpl; lia|]. by eexists.
Qed.

Lemma count_and_report_all_spaced (nows : list Z) : ∀ st lines st',
  count_and_report_all st nows = Some (lines, st') →
  (∀ t n, lines !! 0 = Some (t, n) → (lastPrint st + 1000000000 ≤ t)%Z)
  ∧ (∀ i t1 n1 t2 n2,
       lines !! i = Some (t1, n1) → lines !! S i = Some (t2, n2) →
       (t1 + 1000000000 ≤ t2)%Z).
Proof.
  induction nows as [|now nows IH]; intros st lines st' Hrun; simpl in Hrun.
  - simplify_eq. split; intros; simplify_eq/=.
  - unfold count_and_report in Hrun. case_bool_decide; [done|].
    case_bool_decide as Hsec; simpl in Hrun.
    + destruct (count_and_report_all _ nows) as [[lines1 st1]|] eqn:Hrest;
        simplify_eq/=.
      destruct (IH _ _ _ Hrest) as [Hfirst Hnext]. simpl in Hfirst.
      apply duration_cast_seconds_ge_1 in Hsec. split.
      * intros t n [= <- <-]. lia.
      * intros [|i] t1 n1 t2 n2 H1 H2; simplify_eq/=; eauto.
    + destruct (count_and_report_all _ nows) as [[lines1 st1]|] eqn:Hrest;
        simplify_eq/=.
      apply (IH _ _ _ Hrest).
Qed.

(** X6: as long as the counter cannot overflow, the report is defined, and
    no iteration is lost or counted twice: the numbers printed and the
    counter left at the end add up to the counter at the start plus the
    number of iterations. *)
Theorem report_counts_every_iteration (st : report_state) (nows : list Z) :
  (0 ≤ fpsCounter st)%Z →
  (fpsCounter st + Z.of_nat (length nows) ≤ INT_MAX)%Z →
  ∃ lines st',
    count_and_report_all st nows = Some (lines, st')
    ∧ (foldr Z.add 0 (snd <$> lines) + fpsCounter st'
       = fpsCounter st + Z.of_nat (length nows))%Z
    ∧ (0 ≤ fpsCounter st')%Z.
Proof.
  revert st.
  induction nows as [|now nows IH]; intros st Hnn Hmax.
  - exists [], st. simpl. repeat split; [lia|done].
  - rewrite length_cons, Nat2Z.inj_succ in *.
    cbn [count_and_report_all]. unfold count_and_report.
    rewrite bool_decide_eq_false_2 by lia.
    case_bool_decide as Hsec.
    + destruct (IH (ReportState now 0)) as (lines & st' & Hrun & Hsum & Hnn');
        [simpl; lia|simpl; unfold INT_MAX in *; lia|].
      cbn [mbind option_bind]. rewrite Hrun. cbn [mbind option_bind].
      eexists _, _. split; [done|]. csimpl in *. lia.
    + destruct (IH (ReportState (lastPrint st) (fpsCounter st + 1)))
        as (lines & st' & Hrun & Hsum & Hnn'); [simpl; lia|simpl; lia|].
      cbn [mbind option_bind]. rewrite Hrun. cbn [mbind option_bind].
      eexists _, _. split; [done|]. csimpl in *. lia.
Qed.

Lemma report_counts_every_iteration_witness :
  ∃ lines st',
    count_and_report_all (ReportState 0 0)
      [400000000; 800000000; 1200000000; 1600000000]%Z
    = Some (lines, st')
    ∧ (foldr Z.add 0 (snd <$> lines) + fpsCounter st'
       = fpsCounter (ReportState 0 0)
         + Z.of_nat (length [400000000; 800000000; 1200000000;
                             1600000000]%Z))%Z
    ∧ (0 ≤ fpsCounter st')%Z.
Proof.
  apply (report_counts_every_iteration (ReportState 0 0)
           [400000000; 800000000; 1200000000; 1600000000]%Z);
    vm_compute; congruence.
Defined.

(** X7: as long as the counter cannot overflow, two lines of the report are
    never printed less than a second apart, and the first not less than a
    second after the start of the loop. *)
Theorem report_lines_a_second_apart (st : report_state) (nows : list Z) :
  (0 ≤ fpsCounter st)%Z →
  (fpsCounter st + Z.of_nat (length nows) ≤ INT_MAX)%Z →
  ∃ lines st',
    count_and_report_all st nows = Some (lines, st')
    ∧ (∀ t n, lines !! 0 = Some (t, n) → (lastPrint st + 1000000000 ≤ t)%Z)
    ∧ (∀ i t1 n1 t2 n2,
         lines !! i = Some (t1, n1) → lines !! S i = Some (t2, n2) →
         (t1 + 1000000000 ≤ t2)%Z).
Proof.
  intros Hnn Hmax.
  destruct (count_and_report_all_defined nows st Hnn Hmax)
    as [[lines st'] Hrun].
  exists lines, st'. split; [done|]. by eapply count_and_report_all_spaced.
Qed.

Lemma report_lines_a_second_apart_witness :
  ∃ lines st',
    count_and_report_all (ReportState 0 0)
      [400000000; 1200000000; 1600000000; 2300000000]%Z
    = Some (lines, st')
    ∧ (∀ t n, lines !! 0 = Some (t, n) → (0 + 1000000000 ≤ t)%Z)
    ∧ (∀ i t1 n1 t2 n2,
         lines !! i = Some (t1, n1) → lines !! S i = Some (t2, n2) →
         (t1 + 1000000000 ≤ t2)%Z).
Proof.
  apply (report_lines_a_second_apart (ReportState 0 0)
           [400000000; 1200000000; 1600000000; 2300000000]%Z);
    vm_compute; congruence.
Defined.

Example count_and_report_all_sample :
  count_and_report_all (ReportState 0 0)
    [400000000; 1200000000; 1600000000; 2300000000]%Z
  = Some ([(1200000000, 2); (2300000000, 2)]%Z, ReportState 2300000000 0).
Proof. reflexivity. Qed.

(** ** The threads of [main] *)

Lemma omap_spawned_consumers (ids : list Z) :
  omap spawned (SpawnConsumer <$> ids) = ConsumerThread <$> ids.
Proof. induction ids as [|id ids IH]; csimpl; [done|]. by rewrite IH. Qed.

Lemma omap_joined_consumers (ids : list Z) :
  omap joined (JoinConsumer <$> ids) = ConsumerThread <$> ids.
Proof. induction ids as [|id ids IH]; csimpl; [done|]. by rewrite IH. Qed.

Lemma omap_spawned_joins (ids : list Z) :
  omap spawned (JoinConsumer <$> ids) = [].
Proof. induction ids as [|id ids IH]; csimpl; done. Qed.

Lemma omap_joined_spawns (ids : list Z) :
  omap joined (SpawnConsumer <$> ids) = [].
Proof. induction ids as [|id ids IH]; csimpl; done. Qed.

Section MainThreads.
Variable atoi : string → Z.

Lemma main_valid_actions arg0 arg1 arg2 arg3 output_exists :
  (0 < atoi arg1)%Z → (0 < atoi arg2)%Z →
  (1 ≤ atoi arg3 ≤ MAX_CONSUMERS)%Z →
  main atoi [arg0; arg1; arg2; arg3] output_exists
  = (([PrintBanner (atoi arg2) (atoi arg1) (atoi arg3)]
      ++ (if output_exists then [RemoveOutputDir] else [])
      ++ [CreateOutputDir; SpawnProducer]
      ++ (SpawnConsumer <$> seqZ 0 (atoi arg3)) ++ [SleepFor (atoi arg1)])
     ++ StoreRunningFalse
     :: ([NotifyAll; JoinProducer]
         ++ (JoinConsumer <$> seqZ 0 (atoi arg3)) ++ [PrintSummary]), 0%Z).
Proof.
  intros Hdur Hfps Hcons. unfold main.
  rewrite bool_decide_eq_false_2 by lia.
  rewrite bool_decide_eq_false_2 by lia.
  f_equal. by rewrite <- !(assoc_L (++)).
Qed.

Lemma main_spawned argv output_exists :
  omap spawned (main atoi argv output_exists).1 = []
  ∨ ∃ arg0 arg1 arg2 arg3,
      argv = [arg0; arg1; arg2; arg3]
      ∧ (1 ≤ atoi arg3 ≤ MAX_CONSUMERS)%Z
      ∧ omap spawned (main atoi argv output_exists).1
        = ProducerThread :: (ConsumerThread <$> seqZ 0 (atoi arg3)).
Proof.
  unfold main.
  destruct argv as [|arg0 [|arg1 [|arg2 [|arg3 [|arg4 argv]]]]];
    try (by left).
  case_bool_decide as Hpos; [by left|].
  case_bool_decide as Hmax; [by left|].
  right. exists arg0, arg1, arg2, arg3. split; [done|]. split; [lia|].
  cbn [fst]. rewrite !omap_app, omap_spawned_consumers, omap_spawned_joins.
  destruct output_exists; simpl; by rewrite app_nil_r.
Qed.

(** X8: whatever its arguments, [main] creates at most eight threads; with
    valid arguments it creates the producer first and then the consumers
    0, 1, ... up to the number asked for. *)
Theorem main_spawns_at_most_eight (argv : list string)
    (output_exists : bool) :
  length (omap spawned (main atoi argv output_exists).1) ≤ 8
  ∧ (valid_config atoi argv →
     ∃ arg0 arg1 arg2 arg3,
       argv = [arg0; arg1; arg2; arg3]
       ∧ omap spawned (main atoi argv output_exists).1
         = ProducerThread :: (ConsumerThread <$> seqZ 0 (atoi arg3))).
Proof.
  split.
  - destruct (main_spawned argv output_exists)
      as [->|(arg0 & arg1 & arg2 & arg3 & _ & Hcons & ->)]; simpl; [lia|].
    rewrite length_fmap, length_seqZ. unfold MAX_CONSUMERS in Hcons. lia.
  - intros (arg0 & arg1 & arg2 & arg3 & -> & Hdur & Hfps & Hcons).
    exists arg0, arg1, arg2, arg3. split; [done|].
    unfold main. rewrite !bool_decide_eq_false_2 by lia. cbn [fst].
    rewrite !omap_app, omap_spawned_consumers, omap_spawned_joins.
    destruct output_exists; simpl; by rewrite app_nil_r.
Qed.

(** X9: with valid arguments [main] clears [running] once, after it has
    created every thread and before it joins any; it joins exactly the
    threads it has created, in the order of their creation, and returns 0. *)
Theorem main_joins_what_it_spawns (argv : list string)
    (output_exists : bool) :
  valid_config atoi argv →
  ∃ before after,
    main atoi argv output_exists = (before ++ StoreRunningFalse :: after, 0%Z)
    ∧ (StoreRunningFalse ∉ before) ∧ (StoreRunningFalse ∉ after)
    ∧ omap joined before = [] ∧ omap spawned after = []
    ∧ omap joined after = omap spawned before.
Proof.
  intros (arg0 & arg1 & arg2 & arg3 & -> & Hdur & Hfps & Hcons).
  eexists _, _. split; [by apply main_valid_actions|].
  assert (∀ ids : list Z, StoreRunningFalse ∉ (SpawnConsumer <$> ids)) as Hs.
  { intros ids Hin. apply list_elem_of_fmap in Hin as (id & [=] & _). }
  assert (∀ ids : list Z, StoreRunningFalse ∉ (JoinConsumer <$> ids)) as Hj.
  { intros ids Hin. apply list_elem_of_fmap in Hin as (id & [=] & _). }
  repeat split.
  - intros Hin. decompose_list_elem_of; try done.
    + by destruct output_exists; decompose_list_elem_of.
    + by eapply Hs.
  - intros Hin. decompose_list_elem_of; try done. by eapply Hj.
  - rewrite !omap_app, omap_joined_spawns. by destruct output_exists.
  - rewrite !omap_app, omap_spawned_joins. done.
  - rewrite !omap_app, omap_joined_consumers, omap_spawned_consumers.
    destruct output_exists; simpl; by rewrite app_nil_r.
Qed.

End MainThreads.

Lemma main_spawns_at_most_eight_witness :
  ∃ arg0 arg1 arg2 arg3,
    ["siss"; "300"; "50"; "2"] = [arg0; arg1; arg2; arg3]
    ∧ omap spawned (main atoi_decimal ["siss"; "300"; "50"; "2"] false).1
      = ProducerThread :: (ConsumerThread <$> seqZ 0 (atoi_decimal arg3)).
Proof.
  apply (main_spawns_at_most_eight atoi_decimal
           ["siss"; "300"; "50"; "2"] false).
  exists "siss", "300", "50", "2". by vm_compute.
Defined.

Lemma main_joins_what_it_spawns_witness :
  ∃ before after,
    main atoi_decimal ["siss"; "300"; "50"; "2"] false
    = (before ++ StoreRunningFalse :: after, 0%Z)
    ∧ (StoreRunningFalse ∉ before) ∧ (StoreRunningFalse ∉ after)
    ∧ omap joined before = [] ∧ omap spawned after = []
    ∧ omap joined after = omap spawned before.
Proof.
  apply (main_joins_what_it_spawns atoi_decimal
           ["siss"; "300"; "50"; "2"] false).
  exists "siss", "300", "50", "2". by vm_compute.
Defined.

(** ** The threads: shutdown, order of delivery, and the final figures *)

(** X10: the file of a payload is named after its sequence number alone:
    two numbers give the same name exactly when they are equal, negative
    numbers included, and every name lies under [outputDir]. *)
Theorem filename_per_index (i j : Z) :
  (filename i = filename j ↔ i = j)
  ∧ String.prefix (outputDir +:+ "/") (filename i) = true.
Proof.
  split.
  - split; [apply filename_inj|]. by intros ->.
  - reflexivity.
Qed.

Section PipelineMore.
Context {Mat : Type}.
Variable imencode : Mat → option (list Byte.byte).
Implicit Types (s : @state Mat) (e : @event Mat) (trace : list (@event Mat)).

Lemma list_lookup_insert_inv (pcs : list (@consumer_pc Mat)) id pc id' pc' :
  <[id := pc]> pcs !! id' = Some pc' → pc' = pc ∨ pcs !! id' = Some pc'.
Proof.
  intros Hlook. destruct (decide (id = id')) as [->|Hne].
  - destruct (decide (id' < length pcs)) as [Hlt|Hge].
    + rewrite list_lookup_insert_eq in Hlook by done. left. congruence.
    + rewrite list_insert_ge in Hlook by lia. by right.
  - rewrite list_lookup_insert_ne in Hlook by done. by right.
Qed.

Lemma step_running_false s e s' :
  step imencode s e s' → running s = false → running s' = false.
Proof. by destruct 1. Qed.

Lemma run_running_false s trace s' :
  run imencode s trace s' → running s = false → running s' = false.
Proof.
  induction 1 as [|s trace s1 e s2 _ IH Hstep]; [done|].
  intros Hs. eapply step_running_false; eauto.
Qed.

(** While [running] is true nobody has cleared it and no thread has
    returned; once it is false, [main] has cleared it. *)
Lemma run_shutdown n trace s :
  run imencode (init n) trace s →
  (running s = true →
     (EvShutdown ∉ trace) ∧ producer s ≠ PDone
     ∧ ∀ id, consumers s !! id ≠ Some CDone)
  ∧ (running s = false → EvShutdown ∈ trace).
Proof.
  intros Hrun. remember (init n) as s0 eqn:Hs0.
  induction Hrun as [|s0 trace s1 e s2 _ IH Hstep]; subst.
  - split; [|done]. intros _. split; [apply not_elem_of_nil|].
    split; [done|]. intros id Hlook.
    by apply lookup_replicate_1 in Hlook as [? _].
  - destruct (IH eq_refl) as [Hopen Hclosed]. clear IH.
    assert (∀ pc id id', running s1 = true → pc ≠ CDone →
              <[id := pc]> (consumers s1) !! id' ≠ Some CDone) as Hins.
    { intros pc id id' Hr Hpc Hlook.
      apply list_lookup_insert_inv in Hlook as [?|Hlook]; [done|].
      by apply (Hopen Hr) in Hlook. }
    split.
    + intros Hr.
      destruct Hstep; simpl in *; try done;
        try (apply pop_false_inv in H0 as [? _]; congruence);
        try congruence;
        (destruct (Hopen Hr) as (Hno & Hprod & Hcons);
         split; [rewrite elem_of_app, list_elem_of_singleton;
                 by intros [?|?]|];
         split; [done|]; auto).
    + intros Hr. apply elem_of_app.
      destruct (running s1) eqn:Hr1; [|left; auto].
      right. destruct Hstep; simpl in *; try congruence.
      by apply list_elem_of_singleton.
Qed.

(** X11: shutdown is cooperative: in no run has the producer or a consumer
    returned unless [main] has cleared [running] before, and once the flag
    is cleared it stays cleared. *)
Theorem threads_return_after_shutdown n trace s :
  run imencode (init n) trace s →
  producer s = PDone ∨ CDone ∈ consumers s →
  running s = false ∧ EvShutdown ∈ trace
  ∧ ∀ trace' s', run imencode s trace' s' → running s' = false.
Proof.
  intros Hrun Hdone.
  destruct (run_shutdown _ _ _ Hrun) as [Hopen Hclosed].
  assert (running s = false) as Hr.
  { destruct (running s) eqn:Hr; [|done].
    destruct (Hopen eq_refl) as (_ & Hprod & Hcons).
    destruct Hdone as [?|Hin]; [done|].
    apply list_elem_of_lookup in Hin as [id Hid]. by apply Hcons in Hid. }
  split; [done|]. split; [auto|].
  intros trace' s' Hrun'. by eapply run_running_false.
Qed.

Lemma pushed_imgs_snoc trace e :
  pushed_imgs (trace ++ [e]) = pushed_imgs trace ++ option_list (pushed_img e).
Proof. unfold pushed_imgs. rewrite omap_app. f_equal; by destruct e. Qed.

Lemma popped_imgs_snoc trace e :
  popped_imgs (trace ++ [e]) = popped_imgs trace ++ option_list (popped_img e).
Proof. unfold popped_imgs. rewrite omap_app. f_equal; by destruct e. Qed.

(** What was pushed is what has left the queue, by a pop or by an eviction,
    followed by what the queue holds. *)
Lemma run_fifo n trace s :
  run imencode (init n) trace s →
  ∃ gone,
    pushed_imgs trace = gone ++ queue s
    ∧ popped_imgs trace `sublist_of` gone.
Proof.
  intros Hrun. remember (init n) as s0 eqn:Hs0.
  induction Hrun as [|s0 trace s1 e s2 _ IH Hstep]; subst.
  - by exists [].
  - destruct (IH eq_refl) as (gone & Hpushed & Hpopped). clear IH.
    rewrite pushed_imgs_snoc, popped_imgs_snoc.
    destruct Hstep; simpl; rewrite ?app_nil_r; eauto.
    + unfold SafeQueue.push in H0. case_decide.
      * destruct (queue s) as [|oldest rest] eqn:Hq; simplify_eq/=.
        exists (gone ++ [oldest]). split.
        { rewrite Hpushed, <- !(assoc_L (++)). done. }
        by apply sublist_inserts_r.
      * simplify_eq/=. exists gone. split; [|done].
        by rewrite Hpushed, (assoc_L (++)).
    + apply pop_true_inv in H0. exists (gone ++ [img]). split.
      * rewrite Hpushed, H0, <- (assoc_L (++)). done.
      * by apply sublist_app.
Qed.

(** X12: payloads are handed out in the order in which they were produced
    and none twice: the images popped so far, followed by those waiting in
    the queue, are a subsequence of the images pushed, and the queue holds
    the most recent of them. *)
Theorem payloads_delivered_in_order n trace s :
  run imencode (init n) trace s →
  queue s `suffix_of` pushed_imgs trace
  ∧ popped_imgs trace ++ queue s `sublist_of` pushed_imgs trace.
Proof.
  intros Hrun. destruct (run_fifo _ _ _ Hrun) as (gone & -> & Hpopped).
  split; [by exists gone|]. by apply sublist_app.
Qed.

(** X13: when every thread has returned and nothing has overflowed, the
    figures of the summary are those of the run: [imagesGenerated] is the
    number of pushes, [imagesSaved] the number of pops,
    [totalBytesWritten] the sum of the buffers written; the images saved
    and those left in the queue together are at most the images generated,
    and at most [MAX_QUEUE_SIZE] are left. *)
Theorem summary_accounts n trace s :
  run imencode (init n) trace s →
  all_joined s →
  (Z.of_nat (pushed trace) ≤ INT_MAX)%Z →
  (written trace < SIZE_MODULUS)%Z →
  imagesGenerated s = Z.of_nat (pushed trace)
  ∧ imagesSaved s = Z.of_nat (popped trace)
  ∧ totalBytesWritten s = written trace
  ∧ (imagesSaved s + Z.of_nat (SafeQueue.size (queue s))
     ≤ imagesGenerated s)%Z
  ∧ SafeQueue.size (queue s) ≤ MAX_QUEUE_SIZE.
Proof.
  intros Hrun [Hprod Hcons] Hpush Hbytes.
  destruct (counters_exact _ _ _ _ Hrun Hpush) as (HG & HS & _).
  destruct (run_invariant _ _ _ _ Hrun) as [_ HP _ HI HQ _ _ HL _].
  unfold uncounted, pending, SafeQueue.size in *.
  rewrite Hprod in HP. rewrite (pending_all_done _ Hcons) in HI.
  rewrite HG, HS, (bytes_exact _ _ _ _ Hrun Hbytes).
  repeat split; try done; lia.
Qed.

Lemma failed_snoc trace e :
  failed (trace ++ [e]) = failed trace + (if is_failed e then 1 else 0).
Proof.
  unfold failed. rewrite filter_app, length_app. f_equal. by destruct e.
Qed.

(** Every sequence number handed out belongs to a file that was opened, to
    a payload that failed, or to a consumer that has not tried yet. *)
Lemma run_sink_accounts n trace s :
  run imencode (init n) trace s →
  length (indices trace)
  = length (opened trace) + failed trace
    + length (omap held_file (consumers s)).
Proof.
  intros Hrun. remember (init n) as s0 eqn:Hs0.
  induction Hrun as [|s0 trace s1 e s2 _ IH Hstep]; subst.
  - simpl. induction n as [|n IHn]; [done|]. exact IHn.
  - specialize (IH eq_refl).
    rewrite indices_snoc, opened_snoc, failed_snoc, !length_app.
    destruct Hstep; simpl; try lia.
    all: match goal with
         | H : consumers ?s !! ?id = Some ?pc
           |- context [<[?id := ?pc']> (consumers ?s)] =>
             pose proof (Permutation_length
                           (held_insert (consumers s) id pc pc' H)) as Hp;
             simpl in Hp
         end; lia.
Qed.

(** X14: when every thread has returned and nothing has overflowed,
    [imagesSaved] is the number of files opened for writing plus the number
    of payloads whose encoding or whose file failed. *)
Theorem saved_counts_opened_and_failed n trace s :
  run imencode (init n) trace s →
  all_joined s →
  (Z.of_nat (pushed trace) ≤ INT_MAX)%Z →
  imagesSaved s = Z.of_nat (length (opened trace) + failed trace).
Proof.
  intros Hrun [_ Hcons] Hpush.
  destruct (counters_exact _ _ _ _ Hrun Hpush) as (_ & -> & _).
  rewrite (run_sink_accounts _ _ _ Hrun).
  assert (omap held_file (consumers s) = []) as ->; [|simpl; lia].
  induction (consumers s) as [|pc pcs IH]; [done|].
  rewrite (Hcons pc) by left. simpl. apply IH.
  intros pc' Hin. apply Hcons. by right.
Qed.

(** X15: a run that pushes no more images than the queue can hold loses
    none: the images pushed are the images popped followed by those still
    in the queue. *)
Theorem nothing_lost_below_capacity n trace s :
  run imencode (init n) trace s →
  pushed trace ≤ MAX_QUEUE_SIZE →
  pushed_imgs trace = popped_imgs trace ++ queue s.
Proof.
  intros Hrun. remember (init n) as s0 eqn:Hs0.
  induction Hrun as [|s0 trace s1 e s2 Hrun IH Hstep]; subst; [done|].
  rewrite pushed_snoc, pushed_imgs_snoc, popped_imgs_snoc. intros Hle.
  specialize (IH eq_refl). rewrite IH by lia.
  destruct Hstep; simpl in *; rewrite ?app_nil_r; try done.
  - pose proof (inv_queue _ _ _ (run_invariant _ _ _ _ Hrun)) as HQ.
    rewrite push_below in H0 by lia. simplify_eq.
    by rewrite (assoc_L (++)).
  - apply pop_true_inv in H0. rewrite H0, <- (assoc_L (++)). done.
Qed.

(** X16: while a run goes on and nothing has overflowed, [imagesGenerated]
    is the number of pushes or one less, [imagesSaved] is at most the
    number of pops, and [imagesSaved] is at most [imagesGenerated] plus one;
    it can be that much ahead, as when the first image is popped and
    numbered before the producer has counted it. *)
Theorem counters_lag n trace s (img : Mat) :
  (run imencode (init n) trace s →
   (Z.of_nat (pushed trace) ≤ INT_MAX)%Z →
   (imagesGenerated s ≤ Z.of_nat (pushed trace) ≤ imagesGenerated s + 1)%Z
   ∧ (imagesSaved s ≤ Z.of_nat (popped trace))%Z
   ∧ (imagesSaved s ≤ imagesGenerated s + 1)%Z)
  ∧ ∃ trace' s',
      run imencode (init 1) trace' s'
      ∧ imagesSaved s' = (imagesGenerated s' + 1)%Z.
Proof.
  split.
  - intros Hrun Hpush.
    destruct (counters_exact _ _ _ _ Hrun Hpush) as (-> & -> & Hidx & Hgen).
    destruct (run_invariant _ _ _ _ Hrun) as [_ HP _ _ _ _ _ _ _].
    unfold uncounted in HP. destruct (producer s); lia.
  - exists [EvProduce img; EvPush img; EvPop 0 img; EvIndex 0 0].
    eexists. split; [repeat forward; apply run_nil|done].
Qed.

End PipelineMore.

Lemma sample_run_joined :
  all_joined (State [] false 1 1 3 PDone [@CDone (list Byte.byte)]).
Proof.
  split; [done|]. intros pc Hin. by apply list_elem_of_singleton in Hin.
Qed.

Lemma threads_return_after_shutdown_witness :
  let trace :=
    [EvProduce sample_img; EvPush sample_img; EvGenerated;
     EvPop 0 sample_img; EvIndex 0 0; EvOpened 0 (filename 0);
     EvWritten 0 (filename 0) (length sample_img); EvShutdown; EvPopFalse 0;
     EvProducerExit] in
  let s : @state (list Byte.byte) := State [] false 1 1 3 PDone [CDone] in
  running s = false ∧ EvShutdown ∈ trace
  ∧ ∀ trace' s', run sample_imencode s trace' s' → running s' = false.
Proof.
  intros trace s.
  apply (threads_return_after_shutdown sample_imencode 1 trace s sample_run).
  left. reflexivity.
Defined.

Lemma payloads_delivered_in_order_witness :
  queue busy_state_opened `suffix_of` pushed_imgs busy_trace_opened
  ∧ popped_imgs busy_trace_opened ++ queue busy_state_opened
    `sublist_of` pushed_imgs busy_trace_opened.
Proof.
  apply (payloads_delivered_in_order sample_imencode 2 busy_trace_opened
           busy_state_opened busy_run_opened).
Defined.

Lemma summary_accounts_witness :
  let trace :=
    [EvProduce sample_img; EvPush sample_img; EvGenerated;
     EvPop 0 sample_img; EvIndex 0 0; EvOpened 0 (filename 0);
     EvWritten 0 (filename 0) (length sample_img); EvShutdown; EvPopFalse 0;
     EvProducerExit] in
  let s : @state (list Byte.byte) := State [] false 1 1 3 PDone [CDone] in
  imagesGenerated s = Z.of_nat (pushed trace)
  ∧ imagesSaved s = Z.of_nat (popped trace)
  ∧ totalBytesWritten s = written trace
  ∧ (imagesSaved s + Z.of_nat (SafeQueue.size (queue s))
     ≤ imagesGenerated s)%Z
  ∧ SafeQueue.size (queue s) ≤ MAX_QUEUE_SIZE.
Proof.
  intros trace s.
  apply (summary_accounts sample_imencode 1 trace s sample_run
           sample_run_joined); by vm_compute.
Defined.

Lemma saved_counts_opened_and_failed_witness :
  let trace : list (@event (list Byte.byte)) :=
    [EvProduce []; EvPush []; EvGenerated; EvPop 0 []; EvIndex 0 0;
     EvEncodeFailed 0 0; EvShutdown; EvPopFalse 0; EvProducerExit] in
  let s : @state (list Byte.byte) := State [] false 1 1 0 PDone [CDone] in
  imagesSaved s = Z.of_nat (length (opened trace) + failed trace).
Proof.
  intros trace s.
  apply (saved_counts_opened_and_failed sample_imencode 1 trace s
           failed_encode_counted_as_saved).
  - split; [done|]. intros pc Hin. by apply list_elem_of_singleton in Hin.
  - by vm_compute.
Defined.

Lemma nothing_lost_below_capacity_witness :
  let trace :=
    [EvProduce sample_img; EvPush sample_img; EvGenerated;
     EvPop 0 sample_img; EvIndex 0 0; EvOpened 0 (filename 0);
     EvWritten 0 (filename 0) (length sample_img); EvShutdown; EvPopFalse 0;
     EvProducerExit] in
  let s : @state (list Byte.byte) := State [] false 1 1 3 PDone [CDone] in
  pushed_imgs trace = popped_imgs trace ++ queue s.
Proof.
  intros trace s.
  apply (nothing_lost_below_capacity sample_imencode 1 trace s sample_run).
  vm_compute. lia.
Defined.

Lemma counters_lag_witness :
  let trace :=
    [EvProduce sample_img; EvPush sample_img; EvGenerated;
     EvPop 0 sample_img; EvIndex 0 0; EvOpened 0 (filename 0)] in
  let s : @state (list Byte.byte) :=
    State [] true 1 1 0 PLoop [CWrite (filename 0) sample_img] in
  (imagesGenerated s ≤ Z.of_nat (pushed trace) ≤ imagesGenerated s + 1)%Z
  ∧ (imagesSaved s ≤ Z.of_nat (popped trace))%Z
  ∧ (imagesSaved s ≤ imagesGenerated s + 1)%Z.
Proof.
  intros trace s.
  apply (counters_lag sample_imencode 1 trace s sample_img).
  - exact sample_run_opened.
  - by vm_compute.
Defined.
